(** * worm_scraper: a verification development for [worm_scraper.go]

    The program scrapes a serialised web novel: it classifies the links of a
    table-of-contents page into arcs, fetches every chapter concurrently with a
    bounded number of retries, formats the paragraphs and writes one flat
    Markdown document.

    Go strings are byte sequences; they are modelled by [string] (a sequence
    of 8-bit [ascii] values), so [length] is Go's [len] and every index below
    is a byte index. *)

From Stdlib Require Import Strings.String Strings.Ascii.
From Stdlib Require Import Lists.List Arith.Arith Bool.Bool ZArith.ZArith Lia.
Import ListNotations.

Local Open Scope list_scope.
Local Open Scope string_scope.

(** ** Go strings *)

Module GoString.

(** [strings.HasPrefix(s, prefix)]. *)
Fixpoint HasPrefix (s prefix : string) {struct prefix} : bool :=
  match prefix with
  | EmptyString => true
  | String a p =>
      match s with
      | EmptyString => false
      | String b s' => Ascii.eqb a b && HasPrefix s' p
      end
  end.

(** [s[n:]] when [n <= len(s)] (no bounds check here, see [slice_from]). *)
Fixpoint drop (n : nat) (s : string) : string :=
  match n, s with
  | O, _ => s
  | S _, EmptyString => EmptyString
  | S k, String _ s' => drop k s'
  end.

(** [s[:n]] when [n <= len(s)]. *)
Fixpoint take (n : nat) (s : string) : string :=
  match n, s with
  | O, _ => EmptyString
  | S _, EmptyString => EmptyString
  | S k, String c s' => String c (take k s')
  end.

(** The scan of [strings.Replace(s, old, new, -1)] for a non-empty [old]:
    left to right, every non-overlapping instance of [old] is replaced by
    [new]. [skip] counts the bytes of a matched instance that are still to be
    passed over. *)
Fixpoint replace_from (old new : string) (skip : nat) (s : string) : string :=
  match s with
  | EmptyString => EmptyString
  | String c s' =>
      match skip with
      | S k => replace_from old new k s'
      | O =>
          if HasPrefix s old
          then (new ++ replace_from old new (String.length old - 1) s')%string
          else String c (replace_from old new 0 s')
      end
  end.

(** [strings.Replace(s, old, new, -1)]. Every call of the program passes a
    non-empty literal for [old]. (For an empty [old] Go inserts [new] around
    every UTF-8 sequence; that case is never reached and is left as the
    identity.) *)
Definition Replace (s old new : string) : string :=
  match old with
  | EmptyString => s
  | String _ _ => replace_from old new 0 s
  end.

(** [strings.Contains(s, substr)]: [substr] occurs in [s] as a contiguous
    substring. *)
Fixpoint Contains (s substr : string) : bool :=
  match s with
  | EmptyString => HasPrefix s substr
  | String _ s' => HasPrefix s substr || Contains s' substr
  end.

(** The byte [c] occurs in [s] ([strings.IndexByte(s, c) >= 0]). *)
Fixpoint mem (c : ascii) (s : string) : bool :=
  match s with
  | EmptyString => false
  | String d s' => Ascii.eqb c d || mem c s'
  end.

(** [s[1:]], or the empty string for the empty string. *)
Definition tail (s : string) : string :=
  match s with
  | EmptyString => EmptyString
  | String _ s' => s'
  end.

(** [fresh_head new p]: [new] is not empty and its first byte does not occur
    in [p]. Replacing by such a [new] cannot complete an instance of [p]. *)
Definition fresh_head (new p : string) : bool :=
  match new with
  | EmptyString => false
  | String n _ => negb (mem n p)
  end.

(** [a] and [b] differ at a position that both have. *)
Fixpoint mismatch (a b : string) : bool :=
  match a, b with
  | String x a', String y b' => negb (Ascii.eqb x y) || mismatch a' b'
  | _, _ => false
  end.

(** [blocks old x]: no instance of [old] can start inside [x], whatever
    follows [x]. *)
Fixpoint blocks (old x : string) : bool :=
  match x with
  | EmptyString => true
  | String _ x' => mismatch old x && blocks old x'
  end.

End GoString.

Import GoString.

(** ** Rewriting passes

    A rule [(old, new)] stands for one call [strings.Replace(s, old, new, -1)].
    [apply_rules] runs the calls one after the other, as the program does;
    [Rewrite] is a single scan that tries all the rules at every position. *)

Module Pass.

Definition Rule : Type := string * string.

Definition apply_rules (rules : list Rule) (s : string) : string :=
  fold_left (fun acc r => Replace acc (fst r) (snd r)) rules s.

(** The first rule with a non-empty left-hand side that matches at the start
    of [s]. *)
Fixpoint find_rule (rules : list Rule) (s : string) : option Rule :=
  match rules with
  | [] => None
  | (old, new) :: rest =>
      match old with
      | EmptyString => find_rule rest s
      | String _ _ => if HasPrefix s old then Some (old, new) else find_rule rest s
      end
  end.

Fixpoint rewrite_from (rules : list Rule) (skip : nat) (s : string) : string :=
  match s with
  | EmptyString => EmptyString
  | String c s' =>
      match skip with
      | S k => rewrite_from rules k s'
      | O =>
          match find_rule rules s with
          | Some (old, new) =>
              (new ++ rewrite_from rules (String.length old - 1) s')%string
          | None => String c (rewrite_from rules 0 s')
          end
      end
  end.

Definition Rewrite (rules : list Rule) (s : string) : string :=
  rewrite_from rules 0 s.

(** Side conditions under which a sequence of calls agrees with one scan. *)

(** Every left-hand side is non-empty. *)
Definition nonempty_lhs (rules : list Rule) : bool :=
  forallb (fun r => negb (String.eqb (fst r) "")) rules.

(** No rule can start inside the block [x]. *)
Definition all_block (rules : list Rule) (x : string) : bool :=
  forallb (fun r => blocks (fst r) x) rules.

(** No replacement text can complete the left-hand side of a later rule. *)
Fixpoint no_feeding (rules : list Rule) : bool :=
  match rules with
  | [] => true
  | r :: rest =>
      forallb (fun r' => fresh_head (snd r) (fst r')) rest && no_feeding rest
  end.

(** Each rule, once reached, still finds its own instance: the earlier rules
    cannot start inside it and the later ones cannot start inside its
    replacement. *)
Fixpoint isolated_from (before rules : list Rule) : bool :=
  match rules with
  | [] => true
  | r :: rest =>
      all_block before (fst r) && all_block rest (snd r)
      && isolated_from (before ++ [r])%list rest
  end.

Definition isolated (rules : list Rule) : bool := isolated_from [] rules.

(** No rule can start inside the block [x] or run into it from the left. *)
Definition guarded (rules : list Rule) (x : string) : bool :=
  forallb (fun r => blocks (fst r) x && fresh_head x (tail (fst r))) rules.

(** Every rule with a non-empty replacement text meets its instances alone:
    the instance is guarded from the earlier rules and cannot overlap itself,
    and the replacement text is guarded from the later rules. *)
Definition separable (rules : list Rule) : bool :=
  forallb
    (fun k =>
       match nth_error rules k with
       | Some (old, new) =>
           String.eqb new ""
           || (guarded (firstn k rules) old && fresh_head old (tail old)
               && guarded (skipn (S k) rules) new)
       | None => true
       end)
    (seq 0 (List.length rules)).

(** No replacement text of [rules] can complete or start an instance of
    [p]. *)
Definition neutral (rules : list Rule) (p : string) : bool :=
  forallb (fun r => fresh_head (snd r) p && fresh_head p (snd r)) rules.

(** Each rule removes its own left-hand side for good: neither its own
    replacement text nor a later one brings it back. *)
Fixpoint clears (rules : list Rule) : bool :=
  match rules with
  | [] => true
  | r :: rest => neutral (r :: rest) (fst r) && clears rest
  end.

End Pass.

Import Pass.

(** ** Panics

    A Go panic that nothing recovers terminates the whole process. *)

Inductive Panic : Type :=
| SliceBounds            (* runtime error: slice bounds out of range *)
| IndexRange             (* runtime error: index out of range *)
| Explicit (msg : string). (* panic(msg) *)

Inductive Result (A : Type) : Type :=
| Ok (a : A)
| Crash (p : Panic).

Arguments Ok {A} a.
Arguments Crash {A} p.

Definition bind {A B : Type} (r : Result A) (k : A -> Result B) : Result B :=
  match r with
  | Ok a => k a
  | Crash p => Crash p
  end.

Notation "x <- r ;; k" := (bind r (fun x => k))
  (at level 61, r at next level, right associativity).
Notation "' pat <- r ;; k" := (bind r (fun x => match x with pat => k end))
  (at level 61, pat pattern, r at next level, right associativity).

(** ** Go slices and integers *)

Module Go.

(** [int] is 64 bits wide; arithmetic wraps around. *)
Definition max_int : Z := 2 ^ 63 - 1.
Definition min_int : Z := - 2 ^ 63.
Definition wrap_int (z : Z) : Z := ((z + 2 ^ 63) mod 2 ^ 64 - 2 ^ 63)%Z.
Definition int_range (z : Z) : Prop := (min_int <= z <= max_int)%Z.

(** [s[:n]] on a string panics when [n > len(s)]. *)
Definition slice_to (s : string) (n : nat) : Result string :=
  if (n <=? String.length s)%nat then Ok (take n s) else Crash SliceBounds.

(** [l[k:]] on a slice panics when [k > len(l)]. *)
Definition slice_from {A : Type} (l : list A) (k : nat) : Result (list A) :=
  if (k <=? List.length l)%nat then Ok (skipn k l) else Crash SliceBounds.

(** [copy(l[d:], src)] seen on [l]: [dst] is the window of [l] that starts at
    index [d], and [min(len(dst), len(src))] elements are copied into it, as if
    through a temporary when the two overlap. *)
Definition copy_at {A : Type} (l : list A) (d : nat) (dst src : list A) : list A :=
  let n := Nat.min (List.length dst) (List.length src) in
  (firstn d l ++ firstn n src ++ skipn (d + n) l)%list.

(** [l[i] = x] panics when [i >= len(l)]. *)
Definition set_index {A : Type} (l : list A) (i : nat) (x : A) : Result (list A) :=
  if (i <? List.length l)%nat
  then Ok (firstn i l ++ x :: skipn (S i) l)%list
  else Crash IndexRange.

(** The list with its [i]-th element changed by [f]; nothing out of range. *)
Fixpoint update {A : Type} (l : list A) (i : nat) (f : A -> A) : list A :=
  match l, i with
  | [], _ => []
  | x :: l', O => f x :: l'
  | x :: l', S i' => x :: update l' i' f
  end.

End Go.

Import Go.

(** ** The data model *)

Definition newline : string := String "010" "".

Definition Paragraph := string.

(** [func (p *Paragraph) Format()]: the value stored back through [p]. *)
Definition Format (p : Paragraph) : Paragraph :=
  let s := p in
  (* Handle emphasis *)
  let s := Replace s "<em>" "*" in
  let s := Replace s "</em>" "*" in
  let s := Replace s "<i>" "*" in
  let s := Replace s "</i>" "*" in
  (* Handle bold *)
  let s := Replace s "<strong>" "**" in
  let s := Replace s "</strong>" "**" in
  let s := Replace s "<b>" "**" in
  let s := Replace s "</b>" "**" in
  (* Remove new lines *)
  let s := Replace s newline "" in
  (* And random double spaces *)
  let s := Replace s ".  " ". " in
  s.

(** The calls of [Format] as rules, in the order of the source: the eight
    markup rules, then the newline rule and the double-space rule. *)
Definition markup_rules : list Rule :=
  [ ("<em>", "*"); ("</em>", "*"); ("<i>", "*"); ("</i>", "*");
    ("<strong>", "**"); ("</strong>", "**"); ("<b>", "**"); ("</b>", "**") ].

Definition format_rules : list Rule :=
  (markup_rules ++ [ (newline, ""); (".  ", ". ") ])%list.

(** The specification of the formatter, from its description: one scan that
    turns emphasis tags into a single asterisk, bold tags into a double
    asterisk and drops newlines, copying every other byte; then one scan that
    collapses a period followed by two spaces. *)
Definition scan_rules : list Rule := (markup_rules ++ [ (newline, "") ])%list.

Definition collapse_rules : list Rule := [ (".  ", ". ") ].

Definition Format_spec (s : string) : string :=
  Rewrite collapse_rules (Rewrite scan_rules s).

(** [Arc.Title] is [ArcTitle] here, next to [Chapter.Title]. *)
Record Chapter : Type := {
  Title : string;
  Url : string;
  Tags : list string;
  Paragraphs : list Paragraph;
  Retries : Z;
  DatePosted : string
}.

Record Arc : Type := {
  Identifier : string;
  ArcTitle : string;
  Chapters : list Chapter
}.

Definition set_Chapters (a : Arc) (chs : list Chapter) : Arc :=
  {| Identifier := Identifier a; ArcTitle := ArcTitle a; Chapters := chs |}.

(** [Chapter{Title: t, Url: u}]: the other fields are zero. *)
Definition placeholder (t u : string) : Chapter :=
  {| Title := t; Url := u; Tags := []; Paragraphs := []; Retries := 0;
     DatePosted := "" |}.

(** ** The classifier *)

(** A [*Arc] as [WhichArc] returns it: the arc at an index of the list, or
    the new [&Arc{}] that nothing else refers to. *)
Inductive ArcRef : Type :=
| InList (i : nat)
| Fresh.

Definition no_match (ch : Chapter) : string :=
  "chapter '" ++ Title ch ++ "' did not match any Arcs".

(** [func (ch *Chapter) WhichArc(arcList []*Arc)], which returns a [*Arc]
    and an [error], scanning from index [i]. The prefix [ch.Title[:2]] is
    taken anew for every arc. *)
Fixpoint WhichArc_from (ch : Chapter) (arcList : list Arc) (i : nat)
  : Result (ArcRef * option string) :=
  match arcList with
  | [] => Ok (Fresh, Some (no_match ch))
  | arc :: rest =>
      prefix <- slice_to (Title ch) 2 ;;
      if String.eqb (Replace prefix "." "") (Identifier arc)
      then Ok (InList i, None)
      else WhichArc_from ch rest (S i)
  end.

Definition WhichArc (ch : Chapter) (arcList : list Arc)
  : Result (ArcRef * option string) :=
  WhichArc_from ch arcList 0.

(** [arc.Chapters] read through the reference. *)
Definition chapters_of (arcs : list Arc) (a : ArcRef) : list Chapter :=
  match a with
  | InList i => match nth_error arcs i with Some arc => Chapters arc | None => [] end
  | Fresh => []
  end.

(** [arc.Chapters = chs] written through the reference; a write to the new
    arc is lost with it. *)
Definition assign_chapters (arcs : list Arc) (a : ArcRef) (chs : list Chapter)
  : list Arc :=
  match a with
  | InList i => update arcs i (fun arc => set_Chapters arc chs)
  | Fresh => arcs
  end.

(** A link of the table of contents: [text] is [strings.TrimSpace(s.Text())],
    [href] is [s.Attr("href")]. *)
Record Link : Type := { text : string; href : string }.

Definition link_chapter (l : Link) : Chapter :=
  placeholder (Replace (text l) newline "") (href l).

(** Lines 191 to 196 of [main]: the guard on the title, then the arc lookup
    (its error is dropped) and the append. *)
Definition add_chapter (arcs : list Arc) (ch : Chapter) : Result (list Arc) :=
  if String.eqb (Title ch) "" then Ok arcs
  else
    '(arc, _) <- WhichArc ch arcs ;;
    Ok (assign_chapters arcs arc (chapters_of arcs arc ++ [ch])%list).

(** The callback of [Each] over the links, in document order. *)
Fixpoint add_links (arcs : list Arc) (links : list Link) : Result (list Arc) :=
  match links with
  | [] => Ok arcs
  | l :: rest =>
      arcs' <- add_chapter arcs (link_chapter l) ;;
      add_links arcs' rest
  end.

Definition missing_chapter : Chapter :=
  placeholder "E.2" "https://parahumans.wordpress.com/2013/11/05/teneral-e-2/".

(** Lines 199 to 207 of [main]: the chapter that the table of contents
    lacks. *)
Definition insert_missing (arcs : list Arc) : Result (list Arc) :=
  let c := missing_chapter in
  '(a, _) <- WhichArc c arcs ;;
  let chs := (chapters_of arcs a ++ [c])%list in
  dst <- slice_from chs (1 + 1) ;;
  src <- slice_from chs 1 ;;
  let chs := copy_at chs (1 + 1) dst src in
  chs <- set_index chs 1 c ;;
  Ok (assign_chapters arcs a chs).

(** The skeleton: the arcs of [ParseArcs] with the chapters of the links and
    the missing chapter. *)
Definition skeleton (arcs : list Arc) (links : list Link) : Result (list Arc) :=
  arcs' <- add_links arcs links ;;
  insert_missing arcs'.

(** The arc assignment as it is described: the index of the first arc whose
    identifier is [key]. *)
Fixpoint find_arc (key : string) (arcs : list Arc) : option nat :=
  match arcs with
  | [] => None
  | arc :: rest =>
      if String.eqb key (Identifier arc) then Some 0
      else option_map S (find_arc key rest)
  end.

(** The two-byte prefix of a title with the periods stripped. *)
Definition arc_key (title : string) : string :=
  Replace (take 2 title) "." "".

(** ** Fetched pages

    A page as [goquery] presents it to [Parse]: the results of the four
    queries that [Parse] makes. *)

#[warnings="-register-all"]
Inductive Node : Type :=
| TextNode (data : string)
| ElementNode (tag : string) (attrs : list (string * string))
              (children : list Node).

(** The nodes below [n], in document order. *)
Fixpoint descendants (n : Node) : list Node :=
  match n with
  | TextNode _ => []
  | ElementNode _ _ children =>
      (fix below (l : list Node) : list Node :=
         match l with
         | [] => []
         | k :: l' => (k :: descendants k ++ below l')%list
         end) children
  end.

Definition is_element (tag : string) (n : Node) : bool :=
  match n with
  | TextNode _ => false
  | ElementNode t _ _ => String.eqb t tag
  end.

(** [s.Find(tag).Nodes] for a selection [s] of the single node [n]: the
    elements below [n] with that tag. *)
Definition Find (n : Node) (tag : string) : list Node :=
  filter (is_element tag) (descendants n).

Fixpoint assoc (name : string) (attrs : list (string * string)) : option string :=
  match attrs with
  | [] => None
  | (k, v) :: rest => if String.eqb k name then Some v else assoc name rest
  end.

(** [s.Attr(name)]: the value and whether the attribute exists. *)
Definition Attr (n : Node) (name : string) : option string :=
  match n with
  | TextNode _ => None
  | ElementNode _ attrs _ => assoc name attrs
  end.

(** [val, exists := s.Attr(name); exists && val == value]. *)
Definition attr_is (n : Node) (name value : string) : bool :=
  match Attr n name with
  | Some val => String.eqb val value
  | None => false
  end.

(** One element of a selection: the node and what [s.Html()] returns for it
    (the serialised inner markup). *)
Record Selection : Type := { node : Node; Html : string }.

Record Document : Type := {
  entry_title : string;          (* doc.Find("h1.entry-title").Text() *)
  entry_tags : list string;      (* the texts of doc.Find(".entry-meta a[rel=tag]") *)
  entry_date : string;           (* doc.Find("time.entry-date").Text() *)
  entry_content : list Selection (* doc.Find(".entry-content > p"), in order *)
}.

(** ** The chapter task *)

Definition set_Title (ch : Chapter) (t : string) : Chapter :=
  {| Title := t; Url := Url ch; Tags := Tags ch; Paragraphs := Paragraphs ch;
     Retries := Retries ch; DatePosted := DatePosted ch |}.

Definition set_Url (ch : Chapter) (u : string) : Chapter :=
  {| Title := Title ch; Url := u; Tags := Tags ch; Paragraphs := Paragraphs ch;
     Retries := Retries ch; DatePosted := DatePosted ch |}.

Definition set_Tags (ch : Chapter) (ts : list string) : Chapter :=
  {| Title := Title ch; Url := Url ch; Tags := ts; Paragraphs := Paragraphs ch;
     Retries := Retries ch; DatePosted := DatePosted ch |}.

Definition set_Paragraphs (ch : Chapter) (ps : list Paragraph) : Chapter :=
  {| Title := Title ch; Url := Url ch; Tags := Tags ch; Paragraphs := ps;
     Retries := Retries ch; DatePosted := DatePosted ch |}.

Definition set_Retries (ch : Chapter) (r : Z) : Chapter :=
  {| Title := Title ch; Url := Url ch; Tags := Tags ch;
     Paragraphs := Paragraphs ch; Retries := r; DatePosted := DatePosted ch |}.

Definition set_DatePosted (ch : Chapter) (d : string) : Chapter :=
  {| Title := Title ch; Url := Url ch; Tags := Tags ch;
     Paragraphs := Paragraphs ch; Retries := Retries ch; DatePosted := d |}.

(** What a call of [Parse] does besides writing to its chapter. *)
Inductive Effect : Type :=
| GoParse               (* go ch.Parse(done): same chapter, same channel *)
| SendDone (b : bool).  (* done <- b *)

Definition timed_out (ch : Chapter) : string :=
  "Chapter url '" ++ Url ch ++ "' has timed out too many times".

(** The callback of [Each] over the content elements: [None] is the early
    [return] for an element with a link in it. *)
Definition paragraph_of (s : Selection) : option Paragraph :=
  (* Check for the previous/next links *)
  if (0 <? List.length (Find (node s) "a"))%nat then None
  else
    (* Get the paragraph HTML *)
    let st := Html s in
    let para :=
      if attr_is (node s) "padding-left" "30px" then "    " ++ st
      else if attr_is (node s) "text-align" "center" then "----------"
      else st in
    Some (Format para).

(** [ch.Paragraphs] after [Each] has run over [sels]. *)
Definition collect (ps : list Paragraph) (sels : list Selection) : list Paragraph :=
  fold_left
    (fun ps s =>
       match paragraph_of s with
       | Some para => (ps ++ [para])%list
       | None => ps
       end)
    sels ps.

(** [func (ch *Chapter) Parse(done chan bool)]. [fetch] is
    [goquery.NewDocument], [None] its error. The result is the chapter as the
    call leaves it, with the effects of the call. *)
Definition Parse (fetch : string -> option Document) (ch : Chapter)
  : Result (Chapter * list Effect) :=
  if (Retries ch >? 3)%Z then Crash (Explicit (timed_out ch))
  else
    (* Make sure it begins with http so goquery can use it *)
    let ch := if HasPrefix (Url ch) "http" then ch
              else set_Url ch ("https://" ++ Url ch) in
    match fetch (Url ch) with
    | None =>
        (* Try again *)
        let ch := set_Retries ch (wrap_int (Retries ch + 1)) in
        Ok (ch, [GoParse])
    | Some doc =>
        let ch := set_Title ch (entry_title doc) in
        let ch := set_Tags ch
                    (fold_left (fun tags t => (tags ++ [t])%list)
                               (entry_tags doc) (Tags ch)) in
        let ch := set_DatePosted ch (entry_date doc) in
        let ch := set_Paragraphs ch (collect (Paragraphs ch) (entry_content doc)) in
        (* Finally, let's signal a success *)
        Ok (ch, [SendDone true])
    end.

(** The address that [Parse] fetches. *)
Definition with_scheme (u : string) : string :=
  if HasPrefix u "http" then u else "https://" ++ u.

(** The paragraphs that a list of content elements contributes. *)
Definition paragraphs (sels : list Selection) : list Paragraph :=
  flat_map (fun s => match paragraph_of s with Some p => [p] | None => [] end)
           sels.

(** The chapter that a successful call of [Parse] leaves. *)
Definition filled (ch : Chapter) (doc : Document) : Chapter :=
  {| Title := entry_title doc;
     Url := with_scheme (Url ch);
     Tags := (Tags ch ++ entry_tags doc)%list;
     Paragraphs := (Paragraphs ch ++ paragraphs (entry_content doc))%list;
     Retries := Retries ch;
     DatePosted := entry_date doc |}.

(** ** The fetch phase

    Lines 209 to 235 of [main]. A goroutine is identified by the chapter it
    was started on, [&arc.Chapters[i]]: a slot is the index of the arc and the
    index of the chapter in it. A call of [Parse] reads and writes its own
    chapter only, so the calls of different goroutines commute and an
    execution is an interleaving of whole calls. The receive of [main] for a
    send is taken together with the call that sends. *)

Definition Slot : Type := nat * nat.

Definition slot_eq_dec (a b : Slot) : {a = b} + {a <> b}.
Proof. decide equality; apply Nat.eq_dec. Defined.

Definition chapter_at (arcs : list Arc) (sl : Slot) : option Chapter :=
  match nth_error arcs (fst sl) with
  | Some a => nth_error (Chapters a) (snd sl)
  | None => None
  end.

(** A write through [&arc.Chapters[i]]. *)
Definition store (arcs : list Arc) (sl : Slot) (ch : Chapter) : list Arc :=
  update arcs (fst sl)
         (fun a => set_Chapters a (update (Chapters a) (snd sl) (fun _ => ch))).

(** The slots in the order of the two loops that start the goroutines. *)
Definition arc_slots (i : nat) (a : Arc) : list Slot :=
  map (fun j => (i, j)) (seq 0 (List.length (Chapters a))).

Fixpoint slots_from (i : nat) (arcs : list Arc) : list Slot :=
  match arcs with
  | [] => []
  | a :: rest => (arc_slots i a ++ slots_from (S i) rest)%list
  end.

Definition slots (arcs : list Arc) : list Slot := slots_from 0 arcs.

(** [chapters] after [n] times [chapters++]. *)
Definition counted (n : nat) : Z := Nat.iter n (fun z => wrap_int (z + 1)) 0%Z.

Record System : Type := {
  sys_arcs : list Arc;      (* the arcs, shared with the goroutines *)
  running : list Slot;      (* the goroutines that have not returned *)
  chapters : Z;             (* the counter of main *)
  assembling : bool         (* main has left the receive loop *)
}.

Definition launch (arcs : list Arc) : System :=
  {| sys_arcs := arcs;
     running := slots arcs;
     chapters := counted (List.length (slots arcs));
     assembling := false |}.

Fixpoint remove_nth {A : Type} (k : nat) (l : list A) : list A :=
  match l, k with
  | [], _ => []
  | _ :: l', O => l'
  | x :: l', S k' => x :: remove_nth k' l'
  end.

(** One effect of a call by the goroutine of slot [sl]. A send is received by
    the loop of [main]: [chapters--], and the loop is left at zero. *)
Definition perform (sl : Slot) (st : System) (e : Effect) : Result System :=
  match e with
  | GoParse =>
      Ok {| sys_arcs := sys_arcs st; running := (running st ++ [sl])%list;
            chapters := chapters st; assembling := assembling st |}
  | SendDone _ =>
      if assembling st then Crash (Explicit "send on closed channel")
      else
        let c := wrap_int (chapters st - 1) in
        Ok {| sys_arcs := sys_arcs st; running := running st;
              chapters := c; assembling := (c =? 0)%Z |}
  end.

Fixpoint perform_all (sl : Slot) (st : System) (effs : list Effect)
  : Result System :=
  match effs with
  | [] => Ok st
  | e :: rest => st' <- perform sl st e ;; perform_all sl st' rest
  end.

(** The [k]-th running goroutine makes its call of [Parse]; [fetch] is what
    the network answers at that moment. Nothing happens when there is no
    such goroutine. *)
Definition step (fetch : string -> option Document) (k : nat) (st : System)
  : Result System :=
  match nth_error (running st) k with
  | None => Ok st
  | Some sl =>
      match chapter_at (sys_arcs st) sl with
      | None => Crash IndexRange
      | Some ch =>
          '(ch', effs) <- Parse fetch ch ;;
          perform_all sl
            {| sys_arcs := store (sys_arcs st) sl ch';
               running := remove_nth k (running st);
               chapters := chapters st;
               assembling := assembling st |}
            effs
      end
  end.

(** An execution: the schedule names the goroutine that runs next, the
    network answers by address and time. *)
Fixpoint run (net : nat -> string -> option Document) (t : nat)
         (sched : list nat) (st : System) : Result System :=
  match sched with
  | [] => Ok st
  | k :: rest => st' <- step (net t) k st ;; run net (S t) rest st'
  end.

(** A schedule in which every step names a goroutine that is running, until
    none is left, when no attempt fails: [n] is the number of running
    goroutines. Every order of completion is such a schedule. *)
Fixpoint picks (n : nat) (sched : list nat) : Prop :=
  match sched with
  | [] => n = 0
  | k :: rest => k < n /\ picks (n - 1) rest
  end.

(** The order of the arcs with what identifies them, and the number of
    chapters of each. *)
Definition shape (arcs : list Arc) : list (string * string * nat) :=
  map (fun a => (Identifier a, ArcTitle a, List.length (Chapters a))) arcs.

(** [c'] is the placeholder [c] after some failed attempts: only the scheme
    of the address and the retry counter may differ. *)
Definition pending (c c' : Chapter) : Prop :=
  Title c' = Title c /\ with_scheme (Url c') = with_scheme (Url c) /\
  Tags c' = Tags c /\ Paragraphs c' = Paragraphs c /\
  DatePosted c' = DatePosted c.

(** [c'] is the placeholder [c] filled from a page, after [r] retries. *)
Definition filled_from (c c' : Chapter) : Prop :=
  exists doc r, c' = filled (set_Retries c r) doc.

(** With a site that always answers no attempt fails: a running goroutine has
    its placeholder untouched, a returned one has it filled from the page at
    its address. *)
Definition untouched (c c' : Chapter) : Prop := c' = c.

Definition filled_by (site : string -> Document) (c c' : Chapter) : Prop :=
  c' = filled c (site (with_scheme (Url c))).

(** Every chapter filled from the page that [site] has at its address, in
    the order of the skeleton. *)
Definition fill_all (site : string -> Document) (arcs : list Arc) : list Arc :=
  map (fun a =>
         set_Chapters a
           (map (fun c => filled c (site (with_scheme (Url c)))) (Chapters a)))
      arcs.

(** The invariant of the fetch phase over a skeleton [sk]: [Pend] relates a
    placeholder to the chapter of a running goroutine, [Fill] to the chapter
    of a goroutine that has returned. *)
Section Invariant.

Variables Pend Fill : Chapter -> Chapter -> Prop.
Variable sk : list Arc.

Record invariant (st : System) : Prop := {
  inv_shape : shape (sys_arcs st) = shape sk;
  inv_nodup : NoDup (running st);
  inv_count : chapters st = Z.of_nat (List.length (running st));
  inv_bound : (Z.of_nat (List.length (running st)) <= max_int)%Z;
  inv_closed : assembling st = true -> running st = [];
  inv_valid : forall sl, In sl (running st) -> chapter_at sk sl <> None;
  inv_slots :
    forall sl c, chapter_at sk sl = Some c ->
      exists c', chapter_at (sys_arcs st) sl = Some c' /\
                 (In sl (running st) -> Pend c c') /\
                 (~ In sl (running st) -> Fill c c')
}.

End Invariant.

(** ** The document

    Lines 245 to 275 of [main]; [f] is what has been written to the file. *)

Record Options : Type := {
  with_link : bool;
  with_tags : bool;
  with_date : bool;
  pdf : bool
}.

Definition MainSite : string := "https://parahumans.wordpress.com/".

(** [strings.Join(elems, sep)]. *)
Definition Join (elems : list string) (sep : string) : string :=
  String.concat sep elems.

Definition write_chapter (opts : Options) (f : string) (chapter : Chapter)
  : string :=
  let f := f ++ newline ++ newline in
  let f := f ++ ("## " ++ Title chapter ++ newline ++ newline) in
  let f := if with_tags opts
           then f ++ ("**Tags:** " ++ Join (Tags chapter) ", " ++ "  ")
           else f in
  let f := if with_date opts
           then f ++ ("**Date:** " ++ DatePosted chapter ++ "  ")
           else f in
  let f := if with_link opts
           then f ++ ("**Link:** " ++ Url chapter ++ "  ")
           else f in
  let f := f ++ newline ++ newline in
  (* Now save the chapter's paragraphs *)
  fold_left (fun f p => f ++ (p ++ newline ++ newline)) (Paragraphs chapter) f.

Definition write_arc (opts : Options) (PageBreak : string) (f : string)
           (arc : Arc) : string :=
  let f := f ++ (PageBreak ++ ArcTitle arc) in
  fold_left (write_chapter opts) (Chapters arc) f.

Definition document (opts : Options) (arcs : list Arc) : string :=
  (* Define pagebreak *)
  let PageBreak := newline ++ newline in
  (* Write the cover *)
  let f := "" in
  let f := f ++ ("# Worm" ++ newline ++ newline) in
  let f := f ++ ("By Wildbow" ++ newline ++ newline) in
  let f := f ++ ("Website: " ++ MainSite) in
  (* Now loop through the Arcs *)
  fold_left (write_arc opts PageBreak) arcs f.

(** The text of one chapter and of one arc in the document. *)
Definition chapter_text (opts : Options) (chapter : Chapter) : string :=
  write_chapter opts "" chapter.

Definition flatten (l : list string) : string :=
  fold_right String.append "" l.

Definition arc_text (opts : Options) (arc : Arc) : string :=
  (newline ++ newline ++ ArcTitle arc)
  ++ flatten (map (chapter_text opts) (Chapters arc)).

Definition cover : string :=
  "# Worm" ++ newline ++ newline ++ "By Wildbow" ++ newline ++ newline
  ++ "Website: " ++ MainSite.

(** ** The output file *)

Module OS.

(** The files by name, with their contents. *)
Definition FileSystem : Type := list (string * string).

Fixpoint lookup (fs : FileSystem) (name : string) : option string :=
  match fs with
  | [] => None
  | (n, data) :: rest => if String.eqb n name then Some data else lookup rest name
  end.

Fixpoint write (fs : FileSystem) (name data : string) : FileSystem :=
  match fs with
  | [] => [(name, data)]
  | (n, d) :: rest =>
      if String.eqb n name then (n, data) :: rest
      else (n, d) :: write rest name data
  end.

(** The flags of [os.OpenFile], with the values of [syscall] on Linux. *)
Definition O_RDWR : Z := 2.
Definition O_CREATE : Z := 64.
Definition O_EXCL : Z := 128.
Definition O_TRUNC : Z := 512.

Definition has (flag bit : Z) : bool := negb (Z.land flag bit =? 0)%Z.

Inductive Errno : Type := EEXIST | ENOENT.

Definition error_text (name : string) (e : Errno) : string :=
  match e with
  | EEXIST => "open " ++ name ++ ": file exists"
  | ENOENT => "open " ++ name ++ ": no such file or directory"
  end.

(** [os.OpenFile(name, flag, perm)] on regular files: with [O_CREATE] and
    [O_EXCL] the file must not exist. *)
Definition OpenFile (fs : FileSystem) (name : string) (flag : Z)
  : FileSystem * option Errno :=
  match lookup fs name with
  | Some _ =>
      if has flag O_CREATE && has flag O_EXCL then (fs, Some EEXIST)
      else if has flag O_TRUNC then (write fs name "", None)
      else (fs, None)
  | None =>
      if has flag O_CREATE then (write fs name "", None)
      else (fs, Some ENOENT)
  end.

End OS.

Import OS.

(** Lines 237 to 275 of [main]: the file system that the phase leaves, and
    how it ends. *)
Definition save (opts : Options) (arcs : list Arc) (fs : FileSystem)
  : FileSystem * Result unit :=
  match OpenFile fs "Worm.md" (Z.lor (Z.lor O_RDWR O_CREATE) O_EXCL) with
  | (fs', Some err) => (fs', Crash (Explicit (error_text "Worm.md" err)))
  | (fs', None) => (write fs' "Worm.md" (document opts arcs), Ok tt)
  end.

(** ** The table of contents

    The library functions that [ParseArcs] calls, on byte strings. *)

Module Text.

Definition code (c : ascii) : N := N_of_ascii c.

(** The white space of one byte: tab, line feed, vertical tab, form feed,
    carriage return and space. *)
Definition ascii_space (c : ascii) : bool :=
  ((9 <=? code c) && (code c <=? 13) || (code c =? 32))%N.

(** The width in bytes of the white-space rune ([unicode.IsSpace]) at the
    start of [s], or 0 when [s] starts with none. Besides the six bytes
    above these are U+0085 and U+00A0 (two bytes) and U+1680, U+2000 to
    U+200A, U+2028, U+2029, U+202F, U+205F and U+3000 (three bytes) in
    UTF-8. *)
Definition space_width (s : string) : nat :=
  match s with
  | EmptyString => 0
  | String c r =>
      if ascii_space c then 1
      else
        match code c, map code (list_ascii_of_string (take 2 r)) with
        | 194%N, d :: _ => if ((d =? 133) || (d =? 160))%N then 2 else 0
        | 225%N, [154%N; 128%N] => 3
        | 226%N, [128%N; e] =>
            if ((128 <=? e) && (e <=? 138) || (e =? 168) || (e =? 169)
                || (e =? 175))%N
            then 3 else 0
        | 226%N, [129%N; 159%N] => 3
        | 227%N, [128%N; 128%N] => 3
        | _, _ => 0
        end
  end.

(** The same for the last rune of a string, on the bytes in reverse. *)
Definition last_space_width (r : list ascii) : nat :=
  match r with
  | [] => 0
  | c :: _ =>
      if ascii_space c then 1
      else
        match map code (firstn 3 r) with
        | d :: 194%N :: _ => if ((d =? 133) || (d =? 160))%N then 2 else 0
        | [128%N; 154%N; 225%N] => 3
        | [e; 128%N; 226%N] =>
            if ((128 <=? e) && (e <=? 138) || (e =? 168) || (e =? 169)
                || (e =? 175))%N
            then 3 else 0
        | [159%N; 129%N; 226%N] => 3
        | [128%N; 128%N; 227%N] => 3
        | _ => 0
        end
  end.

Fixpoint trim_left (fuel : nat) (s : string) : string :=
  match fuel with
  | O => s
  | S fuel' =>
      match space_width s with
      | O => s
      | S w => trim_left fuel' (drop (S w) s)
      end
  end.

Fixpoint trim_right (fuel : nat) (r : list ascii) : list ascii :=
  match fuel with
  | O => r
  | S fuel' =>
      match last_space_width r with
      | O => r
      | S w => trim_right fuel' (skipn (S w) r)
      end
  end.

(** [strings.TrimSpace(s)]: the leading white-space runes are removed, then
    the trailing ones. *)
Definition TrimSpace (s : string) : string :=
  let s := trim_left (String.length s) s in
  string_of_list_ascii
    (rev (trim_right (String.length s) (rev (list_ascii_of_string s)))).

(** [strings.Split(s, sep)] for a separator of one byte: the pieces between
    the separators, one more than there are separators. *)
Fixpoint Split (s : string) (sep : ascii) : list string :=
  match s with
  | EmptyString => [EmptyString]
  | String c s' =>
      if Ascii.eqb c sep then EmptyString :: Split s' sep
      else
        match Split s' sep with
        | [] => [String c EmptyString]
        | piece :: pieces => String c piece :: pieces
        end
  end.

Definition is_digit (c : ascii) : bool := ((48 <=? code c) && (code c <=? 57))%N.

Fixpoint leading_digits (s : string) : string :=
  match s with
  | EmptyString => EmptyString
  | String c s' => if is_digit c then String c (leading_digits s') else EmptyString
  end.

(** [r.FindString(s)] for the expression [[0-9]+]: the leftmost run of
    digits, as long as it goes, or the empty string when [s] has no digit. *)
Fixpoint FindDigits (s : string) : string :=
  match s with
  | EmptyString => EmptyString
  | String c s' => if is_digit c then leading_digits s else FindDigits s'
  end.

Fixpoint all_digits (s : string) : bool :=
  match s with
  | EmptyString => true
  | String c s' => is_digit c && all_digits s'
  end.

End Text.

Import Text.

(** The body of the loop of [ParseArcs] for one line. *)
Definition parse_line (arcs : list Arc) (line : string) : list Arc :=
  let line := TrimSpace line in
  if HasPrefix line "Arc"
  then (arcs ++ [ {| Identifier := FindDigits line; ArcTitle := line;
                     Chapters := [] |} ])%list
  else if HasPrefix line "Epilogue"
  then (arcs ++ [ {| Identifier := "E"; ArcTitle := line; Chapters := [] |} ])%list
  else arcs.

(** [func ParseArcs(s string) []*Arc]. *)
Definition ParseArcs (s : string) : list Arc :=
  fold_left parse_line (Split s "010"%char) [].

(** The chapters that [main] makes of the links and passes on to
    [WhichArc]: those with a title. *)
Definition titled (links : list Link) : list Chapter :=
  filter (fun ch => negb (String.eqb (Title ch) "")) (map link_chapter links).

(** The arcs with the chapters assigned as described: every arc receives, in
    the order of discovery, the chapters whose key first matches it. [all]
    is the whole list, [k] the index of the first arc of [arcs] in it. *)
Fixpoint assign_from (all : list Arc) (k : nat) (arcs : list Arc)
         (chs : list Chapter) : list Arc :=
  match arcs with
  | [] => []
  | a :: rest =>
      set_Chapters a
        (Chapters a
         ++ filter (fun ch =>
                      match find_arc (arc_key (Title ch)) all with
                      | Some i => Nat.eqb i k
                      | None => false
                      end) chs)%list
      :: assign_from all (S k) rest chs
  end.

Definition classify (arcs : list Arc) (chs : list Chapter) : list Arc :=
  assign_from arcs 0 arcs chs.

(** Every chapter sits in an arc whose identifier is the key of its title. *)
Definition well_keyed (arcs : list Arc) : Prop :=
  forall a ch, In a arcs -> In ch (Chapters a) ->
               arc_key (Title ch) = Identifier a.

(** [c'] is the chapter [c] of the skeleton with some more retries counted,
    4 at most. *)
Definition retried (c c' : Chapter) : Prop :=
  (0 <= Retries c <= 4 -> Retries c <= Retries c' <= 4)%Z.

(** [c'] is the placeholder [c] filled from a page that the network served
    at the address of [c], at some time. *)
Definition served (net : nat -> string -> option Document) (c c' : Chapter)
  : Prop :=
  exists t doc r,
    net t (with_scheme (Url c)) = Some doc /\
    c' = filled (set_Retries c r) doc.

(** Sample arcs, for the examples below. *)
Definition epilogue (chs : list Chapter) : Arc :=
  {| Identifier := "E"; ArcTitle := "Epilogue"; Chapters := chs |}.

Definition arc1 (chs : list Chapter) : Arc :=
  {| Identifier := "1"; ArcTitle := "Arc 1: Gestation"; Chapters := chs |}.

(** A sample page: a navigation paragraph, a story paragraph, a quoted block
    and a divider. *)
Definition nav_par : Selection :=
  {| node := ElementNode "p" []
               [ElementNode "a" [("href", "/next")] [TextNode "Next Chapter"]];
     Html := "<a href='/next'>Next Chapter</a>" |}.

Definition story_par : Selection :=
  {| node := ElementNode "p" []
               [TextNode "He "; ElementNode "em" [] [TextNode "ran"]; TextNode "."];
     Html := "He <em>ran</em>." |}.

Definition quote_par : Selection :=
  {| node := ElementNode "p" [("padding-left", "30px")] [TextNode "A note."];
     Html := "A note." |}.

Definition divider_par : Selection :=
  {| node := ElementNode "p" [("text-align", "center")] [TextNode "o"];
     Html := "o" |}.

Definition sample_page : Document :=
  {| entry_title := "Gestation 1.1";
     entry_tags := ["Taylor"];
     entry_date := "June 11, 2011";
     entry_content := [nav_par; story_par; quote_par; divider_par; nav_par] |}.

Definition sample_chapter : Chapter :=
  placeholder "1.1" "parahumans.wordpress.com/2011/06/11/1-1/".

(** A sample skeleton with three chapters, a network that fails at time 0
    and serves [sample_page] afterwards, and a site that always serves it. *)
Definition sample_skeleton : list Arc :=
  [ arc1 [placeholder "1.1" "site/1-1"; placeholder "1.2" "site/1-2"];
    epilogue [placeholder "E.1" "site/e-1"] ].

Definition sample_site (u : string) : Document := sample_page.

Definition flaky_net (t : nat) (u : string) : option Document :=
  match t with
  | O => None
  | S _ => Some (sample_site u)
  end.

Definition steady_net (t : nat) (u : string) : option Document :=
  Some (sample_site u).

Definition dead_net (t : nat) (u : string) : option Document := None.

(** ** The conversion *)

(** [os.Remove(name)] on regular files; [main] drops its error. *)
Definition Remove (fs : FileSystem) (name : string) : FileSystem :=
  filter (fun e => negb (String.eqb (fst e) name)) fs.

Definition cmdText (opts : Options) : list string :=
  if pdf opts then ["Worm.md"; "-o"; "Worm.pdf"]
  else ["-S"; "Worm.md"; "--epub-chapter-level"; "2"; "-o"; "Worm.epub"].

(** Lines 277 to 291 of [main]. [pandoc] is the run of the command on its
    arguments: the file system that it leaves, and whether [cmd.Run] returned
    an error. *)
Definition convert (pandoc : list string -> FileSystem -> FileSystem * bool)
           (opts : Options) (fs : FileSystem) : FileSystem :=
  let '(fs, err) := pandoc (cmdText opts) fs in
  if err then fs
  else Remove fs "Worm.md".

(** Lines 237 to 291 of [main]: the write phase, then the conversion. *)
Definition finish (pandoc : list string -> FileSystem -> FileSystem * bool)
           (opts : Options) (arcs : list Arc) (fs : FileSystem)
  : FileSystem * Result unit :=
  match save opts arcs fs with
  | (fs, Ok _) => (convert pandoc opts fs, Ok tt)
  | (fs, Crash p) => (fs, Crash p)
  end.

(** A converter that is not installed, and one that writes the book. *)
Definition no_pandoc (args : list string) (fs : FileSystem)
  : FileSystem * bool := (fs, true).

Definition good_pandoc (args : list string) (fs : FileSystem)
  : FileSystem * bool := (write fs (last args "") "book", false).

Definition plain : Options :=
  {| with_link := true; with_tags := false; with_date := false; pdf := false |}.

(** * Properties *)

(** ** Facts about Go strings *)

Module GoStringFacts.

Lemma app_nil_r (s : string) : (s ++ "")%string = s.
Proof. induction s as [|c s IH]; simpl; [reflexivity | now rewrite IH]. Qed.

Lemma app_assoc (a b c : string) : ((a ++ b) ++ c)%string = (a ++ (b ++ c))%string.
Proof. induction a as [|x a IH]; simpl; [reflexivity | now rewrite IH]. Qed.

Lemma length_app (a b : string) :
  String.length (a ++ b) = String.length a + String.length b.
Proof. induction a as [|x a IH]; simpl; [reflexivity | now rewrite IH]. Qed.

Lemma HasPrefix_app (p r : string) : HasPrefix (p ++ r) p = true.
Proof.
  induction p as [|c p IH]; simpl; [reflexivity|].
  now rewrite Ascii.eqb_refl, IH.
Qed.

Lemma HasPrefix_spec (s p : string) :
  HasPrefix s p = true <-> exists r, s = (p ++ r)%string.
Proof.
  split.
  - revert s. induction p as [|c p IH]; intros s H; simpl in *.
    + now exists s.
    + destruct s as [|d s]; [discriminate|].
      apply andb_prop in H. destruct H as [Hc Hp].
      apply Ascii.eqb_eq in Hc. subst d.
      destruct (IH _ Hp) as [r ->]. now exists r.
  - intros [r ->]. apply HasPrefix_app.
Qed.

Lemma HasPrefix_false (s p : string) :
  HasPrefix s p = false <-> ~ exists r, s = (p ++ r)%string.
Proof.
  rewrite <- HasPrefix_spec. destruct (HasPrefix s p); split; intro H;
    congruence.
Qed.

Lemma drop_app_length (p r : string) : drop (String.length p) (p ++ r) = r.
Proof. induction p as [|c p IH]; simpl; [now destruct r | exact IH]. Qed.

Lemma drop_0 (s : string) : drop 0 s = s.
Proof. now destruct s. Qed.

Lemma take_drop (n : nat) (s : string) : (take n s ++ drop n s)%string = s.
Proof.
  revert s. induction n as [|n IH]; intros [|c s]; simpl; try reflexivity.
  now rewrite IH.
Qed.

Lemma replace_from_skip (old new : string) (k : nat) (s : string) :
  replace_from old new k s = replace_from old new 0 (drop k s).
Proof.
  revert k. induction s as [|c s IH]; intros [|k]; try reflexivity.
  simpl drop. simpl replace_from at 1. apply IH.
Qed.

Lemma Replace_empty (old new : string) : Replace "" old new = "".
Proof. now destruct old. Qed.

(** A matched instance is replaced and the scan resumes behind it. *)
Lemma Replace_hit (old new r : string) :
  old <> "" -> Replace (old ++ r) old new = (new ++ Replace r old new)%string.
Proof.
  destruct old as [|a o]; [congruence|]. intros _. unfold Replace.
  change ((String a o ++ r)%string) with (String a (o ++ r)).
  cbn [replace_from].
  replace (HasPrefix (String a (o ++ r)) (String a o)) with true
    by (symmetry; apply (HasPrefix_app (String a o) r)).
  rewrite replace_from_skip.
  replace (String.length (String a o) - 1) with (String.length o)
    by (simpl; lia).
  now rewrite drop_app_length.
Qed.

(** Where no instance starts, the byte is copied. *)
Lemma Replace_miss (old new : string) (c : ascii) (s : string) :
  old <> "" -> HasPrefix (String c s) old = false ->
  Replace (String c s) old new = String c (Replace s old new).
Proof.
  destruct old as [|a o]; [congruence|]. intros _ H. unfold Replace.
  cbn [replace_from]. now rewrite H.
Qed.

(** The induction principle that follows the scan. *)
Lemma Replace_ind (old new : string) (P : string -> string -> Prop) :
  old <> "" ->
  P "" "" ->
  (forall r, P r (Replace r old new) ->
             P (old ++ r)%string (new ++ Replace r old new)%string) ->
  (forall c s, HasPrefix (String c s) old = false ->
               P s (Replace s old new) ->
               P (String c s) (String c (Replace s old new))) ->
  forall s, P s (Replace s old new).
Proof.
  intros Hold H0 Hhit Hmiss s.
  remember (String.length s) as n eqn:Hn.
  revert s Hn. induction n as [n IH] using lt_wf_ind. intros s Hn.
  destruct s as [|c s].
  - rewrite Replace_empty. exact H0.
  - destruct (HasPrefix (String c s) old) eqn:E.
    + apply HasPrefix_spec in E. destruct E as [r Er]. rewrite Er.
      rewrite (Replace_hit old new r Hold). apply Hhit.
      apply (IH (String.length r)); [|reflexivity].
      rewrite Hn, Er, length_app.
      destruct old; [congruence | simpl; lia].
    + rewrite (Replace_miss old new c s Hold E). apply Hmiss; [exact E|].
      apply (IH (String.length s)); [|reflexivity]. rewrite Hn. simpl. lia.
Qed.

(** *** Occurrences *)

Lemma HasPrefix_nil_r (s : string) : HasPrefix s "" = true.
Proof. reflexivity. Qed.

Lemma Contains_nil_r (s : string) : Contains s "" = true.
Proof. now destruct s. Qed.

Lemma Contains_HasPrefix (s p : string) :
  HasPrefix s p = true -> Contains s p = true.
Proof. destruct s; simpl; intros ->; reflexivity. Qed.

Lemma Contains_cons (c : ascii) (s p : string) :
  Contains s p = true -> Contains (String c s) p = true.
Proof. cbn [Contains]. intros ->. apply orb_true_r. Qed.

Lemma Contains_app_r (a s p : string) :
  Contains s p = true -> Contains (a ++ s) p = true.
Proof.
  intro H. induction a as [|c a IH]; [exact H|].
  now apply (Contains_cons c (a ++ s) p).
Qed.

Lemma Contains_false_cons (c : ascii) (s p : string) :
  Contains (String c s) p = false ->
  HasPrefix (String c s) p = false /\ Contains s p = false.
Proof. cbn [Contains]. apply orb_false_elim. Qed.

Lemma Contains_nonempty (p : string) : p <> "" -> Contains "" p = false.
Proof. destruct p; [congruence | reflexivity]. Qed.

Lemma mem_cons_false (n c : ascii) (q : string) :
  mem n (String c q) = false -> Ascii.eqb n c = false /\ mem n q = false.
Proof. cbn [mem]. apply orb_false_elim. Qed.

(** A block that lacks the first byte of [p] hosts no start of [p]. *)
Lemma Contains_skip (n r p : string) :
  fresh_head p n = true -> Contains (n ++ r) p = Contains r p.
Proof.
  destruct p as [|c p]; [discriminate|]. cbn [fresh_head].
  induction n as [|x n IH]; intro H; [reflexivity|].
  apply negb_true_iff in H. apply mem_cons_false in H. destruct H as [Hx Hn].
  change ((String x n ++ r)%string) with (String x (n ++ r)).
  cbn [Contains HasPrefix]. rewrite Hx. cbn [andb orb].
  apply IH. now rewrite Hn.
Qed.

(** *** What a call of [Replace] can and cannot create *)

(** A prefix that lacks the first byte of [new] was there before the call. *)
Lemma HasPrefix_Replace_inv (old new s q : string) :
  fresh_head new q = true ->
  HasPrefix (Replace s old new) q = true -> HasPrefix s q = true.
Proof.
  destruct old as [|a o]; [intros _ H; exact H|]. revert q.
  apply (Replace_ind (String a o) new
           (fun s t => forall q, fresh_head new q = true ->
                                 HasPrefix t q = true -> HasPrefix s q = true));
    try discriminate.
  - intros q _ H. exact H.
  - intros r _ [|h q] Hf H; [reflexivity|].
    destruct new as [|n new']; [discriminate|]. exfalso.
    cbn [fresh_head mem] in Hf. apply negb_true_iff, orb_false_elim in Hf.
    change ((String n new' ++ Replace r (String a o) (String n new'))%string)
      with (String n (new' ++ Replace r (String a o) (String n new'))) in H.
    cbn [HasPrefix] in H. apply andb_prop in H.
    destruct Hf as [Hf _]. destruct H as [H _].
    apply Ascii.eqb_eq in H. subst h. rewrite Ascii.eqb_refl in Hf. discriminate.
  - intros c s0 _ IH [|h q] Hf H; [reflexivity|].
    cbn [HasPrefix] in *. apply andb_prop in H. destruct H as [H1 H2].
    rewrite H1. cbn [andb]. apply IH; [|exact H2].
    destruct new as [|n new']; [discriminate|].
    cbn [fresh_head] in *. apply negb_true_iff in Hf.
    apply mem_cons_false in Hf. apply negb_true_iff. tauto.
Qed.

(** Where [old] does not occur, the call changes nothing. *)
Lemma Replace_absent (s old new : string) :
  Contains s old = false -> Replace s old new = s.
Proof.
  destruct old as [|a o]; [reflexivity|].
  induction s as [|c s IH]; intro H; [reflexivity|].
  apply Contains_false_cons in H. destruct H as [H1 H2].
  rewrite Replace_miss by (try discriminate; exact H1). now rewrite IH.
Qed.

(** An instance of [p] in the result was in the argument, when [new] and [p]
    do not share their first bytes. *)
Lemma Contains_Replace_inv (s old new p : string) :
  fresh_head new p = true -> fresh_head p new = true ->
  Contains (Replace s old new) p = true -> Contains s p = true.
Proof.
  intros Hnp Hpn.
  destruct old as [|a o]; [intro H; exact H|].
  apply (Replace_ind (String a o) new
           (fun s t => Contains t p = true -> Contains s p = true));
    try discriminate.
  - intro H. exact H.
  - intros r IH H. rewrite (Contains_skip new _ p Hpn) in H.
    apply Contains_app_r. now apply IH.
  - intros c s0 Hmiss IH H. cbn [Contains] in H. apply orb_prop in H.
    destruct H as [H|H].
    + apply Contains_HasPrefix.
      rewrite <- (Replace_miss (String a o) new c s0) in H
        by (try discriminate; exact Hmiss).
      now apply (HasPrefix_Replace_inv (String a o) new).
    + apply Contains_cons. now apply IH.
Qed.

Lemma Contains_Replace_absent (s old new p : string) :
  fresh_head new p = true -> fresh_head p new = true ->
  Contains s p = false -> Contains (Replace s old new) p = false.
Proof.
  intros Hnp Hpn H. destruct (Contains (Replace s old new) p) eqn:E;
    [|reflexivity].
  apply (Contains_Replace_inv s old new p Hnp Hpn) in E. congruence.
Qed.

(** After the call no instance of [old] is left, when [old] and [new] do not
    share their first bytes. *)
Lemma Replace_clears (s old new : string) :
  fresh_head new old = true -> fresh_head old new = true ->
  Contains (Replace s old new) old = false.
Proof.
  intros Hno Hon.
  destruct old as [|a o]; [discriminate|].
  apply (Replace_ind (String a o) new
           (fun s t => Contains t (String a o) = false));
    try discriminate.
  - reflexivity.
  - intros r IH. now rewrite (Contains_skip new _ _ Hon).
  - intros c s0 Hmiss IH. cbn [Contains]. rewrite IH, orb_false_r.
    destruct (HasPrefix (String c (Replace s0 (String a o) new)) (String a o))
      eqn:E; [|reflexivity].
    rewrite <- (Replace_miss (String a o) new c s0) in E
      by (try discriminate; exact Hmiss).
    apply (HasPrefix_Replace_inv (String a o) new) in E; [|exact Hno].
    congruence.
Qed.

(** *** Blocks that a call passes over *)

Lemma mismatch_HasPrefix (old x r : string) :
  mismatch old x = true -> HasPrefix (x ++ r) old = false.
Proof.
  revert x. induction old as [|a o IH]; intros [|c x] H; try discriminate.
  change ((String c x ++ r)%string) with (String c (x ++ r)).
  cbn [mismatch HasPrefix] in *.
  destruct (Ascii.eqb a c); [|reflexivity].
  cbn [negb orb andb] in *. now apply IH.
Qed.

Lemma Replace_block (old new x r : string) :
  blocks old x = true ->
  Replace (x ++ r) old new = (x ++ Replace r old new)%string.
Proof.
  destruct old as [|a o]; [reflexivity|].
  induction x as [|c x IH]; intro H; [reflexivity|].
  cbn [blocks] in H. apply andb_prop in H. destruct H as [H1 H2].
  change ((String c x ++ r)%string) with (String c (x ++ r)).
  rewrite Replace_miss; try discriminate.
  - rewrite (IH H2). reflexivity.
  - apply (mismatch_HasPrefix (String a o) (String c x) r H1).
Qed.

Lemma HasPrefix_before (A x B q : string) :
  fresh_head x q = true -> HasPrefix (A ++ x ++ B) q = HasPrefix A q.
Proof.
  destruct x as [|x0 xt]; [discriminate|]. cbn [fresh_head].
  revert A. induction q as [|h q IH]; intros A H; [reflexivity|].
  apply negb_true_iff in H. apply mem_cons_false in H. destruct H as [H1 H2].
  destruct A as [|c A].
  - change (("" ++ String x0 xt ++ B)%string) with (String x0 (xt ++ B)).
    cbn [HasPrefix]. rewrite Ascii.eqb_sym, H1. reflexivity.
  - change ((String c A ++ String x0 xt ++ B)%string)
      with (String c (A ++ String x0 xt ++ B)).
    cbn [HasPrefix]. rewrite IH; [reflexivity|]. now rewrite H2.
Qed.

(** A block that [old] can neither start in nor run into splits the call. *)
Lemma Replace_app_block (old new A x B : string) :
  blocks old x = true -> fresh_head x (tail old) = true ->
  Replace (A ++ x ++ B) old new
  = (Replace A old new ++ x ++ Replace B old new)%string.
Proof.
  intros Hb Hf. destruct old as [|o0 ot]; [reflexivity|]. cbn [tail] in Hf.
  apply (Replace_ind (String o0 ot) new
           (fun A R => Replace (A ++ x ++ B) (String o0 ot) new
                       = (R ++ x ++ Replace B (String o0 ot) new)%string));
    try discriminate.
  - cbn [String.append]. now apply Replace_block.
  - intros r IH. rewrite app_assoc, Replace_hit by discriminate.
    now rewrite IH, app_assoc.
  - intros c s0 Hmiss IH.
    change ((String c s0 ++ x ++ B)%string) with (String c (s0 ++ x ++ B)).
    rewrite Replace_miss; try discriminate.
    + now rewrite IH.
    + cbn [HasPrefix] in *. now rewrite HasPrefix_before.
Qed.

(** An instance of a pattern that cannot overlap itself is replaced, between
    what the call makes of the text before it and of the text behind it. *)
Lemma Replace_app_hit (old new A B : string) :
  fresh_head old (tail old) = true ->
  Replace (A ++ old ++ B) old new
  = (Replace A old new ++ new ++ Replace B old new)%string.
Proof.
  intro Hf. destruct old as [|o0 ot]; [discriminate|].
  apply (Replace_ind (String o0 ot) new
           (fun A R => Replace (A ++ String o0 ot ++ B) (String o0 ot) new
                       = (R ++ new ++ Replace B (String o0 ot) new)%string));
    try discriminate.
  - cbn [String.append]. apply (Replace_hit (String o0 ot) new B).
    discriminate.
  - intros r IH. rewrite app_assoc, Replace_hit by discriminate.
    now rewrite IH, app_assoc.
  - intros c s0 Hmiss IH.
    change ((String c s0 ++ String o0 ot ++ B)%string)
      with (String c (s0 ++ String o0 ot ++ B)).
    rewrite Replace_miss; try discriminate.
    + now rewrite IH.
    + cbn [HasPrefix] in *. cbn [tail] in Hf. now rewrite HasPrefix_before.
Qed.

(** Deleting a single byte leaves none of it. *)
Lemma Replace_delete_byte (s : string) (c : ascii) :
  Contains (Replace s (String c "") "") (String c "") = false.
Proof.
  apply (Replace_ind (String c "") ""
           (fun s t => Contains t (String c "") = false));
    try discriminate.
  - reflexivity.
  - intros r IH. exact IH.
  - intros d s0 Hmiss IH. cbn [Contains]. rewrite IH, orb_false_r.
    cbn [HasPrefix] in *. exact Hmiss.
Qed.

(** A call whose replacement text is shorter than its pattern never makes
    the text longer, and makes it shorter when the pattern occurs. *)
Lemma length_Replace (s old new : string) :
  String.length new < String.length old ->
  String.length (Replace s old new) <= String.length s /\
  (Contains s old = true ->
   String.length (Replace s old new) < String.length s).
Proof.
  intro L. destruct old as [|a o]; [cbn in L; lia|].
  apply (Replace_ind (String a o) new
           (fun s t => String.length t <= String.length s /\
                       (Contains s (String a o) = true ->
                        String.length t < String.length s)));
    try discriminate.
  - split; [reflexivity | discriminate].
  - intros r [IH _]. rewrite !length_app. split; intros; lia.
  - intros c s0 Hmiss [IH1 IH2]. cbn [String.length]. split; [lia|].
    intro H. cbn [Contains] in H. rewrite Hmiss in H. cbn [orb] in H.
    specialize (IH2 H). lia.
Qed.

(** An instance of [q] survives a call when the pattern cannot start inside
    [q] and [q] cannot start inside the pattern. *)
Lemma Contains_Replace_keep (s old new q : string) :
  old <> "" -> blocks old q = true -> fresh_head q old = true ->
  Contains s q = true -> Contains (Replace s old new) q = true.
Proof.
  intros Hne Hb Hf.
  apply (Replace_ind old new
           (fun s t => Contains s q = true -> Contains t q = true));
    trivial.
  - intros r IH H. rewrite (Contains_skip old r q Hf) in H.
    apply Contains_app_r. now apply IH.
  - intros c s0 Hmiss IH H. cbn [Contains] in H.
    apply orb_true_iff in H. destruct H as [H|H].
    + apply Contains_HasPrefix.
      rewrite <- (Replace_miss old new c s0 Hne Hmiss).
      apply HasPrefix_spec in H. destruct H as [r ->].
      rewrite (Replace_block old new q r Hb). apply HasPrefix_app.
    + apply Contains_cons. now apply IH.
Qed.

End GoStringFacts.

(** ** Sequential calls against a single scan *)

Module PassFacts.

Import GoStringFacts.

Lemma rewrite_from_skip (rules : list Rule) (k : nat) (s : string) :
  rewrite_from rules k s = rewrite_from rules 0 (drop k s).
Proof.
  revert k. induction s as [|c s IH]; intros [|k]; try reflexivity.
  simpl drop. simpl rewrite_from at 1. apply IH.
Qed.

Lemma find_rule_Some (rules : list Rule) (s old new : string) :
  find_rule rules s = Some (old, new) ->
  old <> "" /\ HasPrefix s old = true /\
  exists pre post, rules = (pre ++ (old, new) :: post)%list.
Proof.
  induction rules as [|[o n] rest IH]; [discriminate|]. cbn [find_rule].
  assert (Hrest : find_rule rest s = Some (old, new) ->
                  old <> "" /\ HasPrefix s old = true /\
                  exists pre post,
                    ((o, n) :: rest = pre ++ (old, new) :: post)%list).
  { intro H. destruct (IH H) as (H1 & H2 & pre & post & ->).
    repeat split; trivial. now exists ((o, n) :: pre)%list, post. }
  destruct o as [|a o]; [exact Hrest|].
  destruct (HasPrefix s (String a o)) eqn:E; [|exact Hrest].
  intro H. injection H as <- <-. repeat split; try discriminate; trivial.
  now exists [], rest.
Qed.

Lemma find_rule_None (rules : list Rule) (s : string) :
  find_rule rules s = None ->
  forall r, In r rules -> fst r <> "" -> HasPrefix s (fst r) = false.
Proof.
  induction rules as [|[o n] rest IH]; [intros _ r []|]. cbn [find_rule].
  intros H r [<-|Hin] Hne; cbn [fst] in *.
  - destruct o as [|a o]; [congruence|].
    destruct (HasPrefix s (String a o)); [discriminate | reflexivity].
  - destruct o as [|a o]; [now apply IH|].
    destruct (HasPrefix s (String a o)); [discriminate | now apply IH].
Qed.

Lemma Rewrite_empty (rules : list Rule) : Rewrite rules "" = "".
Proof. reflexivity. Qed.

Lemma Rewrite_hit (rules : list Rule) (old new r : string) :
  find_rule rules (old ++ r) = Some (old, new) ->
  Rewrite rules (old ++ r) = (new ++ Rewrite rules r)%string.
Proof.
  intro H. destruct (find_rule_Some _ _ _ _ H) as (Hne & _ & _).
  destruct old as [|a o]; [congruence|]. unfold Rewrite.
  change ((String a o ++ r)%string) with (String a (o ++ r)) in *.
  cbn [rewrite_from]. rewrite H, rewrite_from_skip.
  replace (String.length (String a o) - 1) with (String.length o)
    by (simpl; lia).
  now rewrite drop_app_length.
Qed.

Lemma Rewrite_miss (rules : list Rule) (c : ascii) (s : string) :
  find_rule rules (String c s) = None ->
  Rewrite rules (String c s) = String c (Rewrite rules s).
Proof. intro H. unfold Rewrite. cbn [rewrite_from]. now rewrite H. Qed.

Lemma apply_rules_app (a b : list Rule) (s : string) :
  apply_rules (a ++ b) s = apply_rules b (apply_rules a s).
Proof. apply fold_left_app. Qed.

Lemma apply_rules_empty (rules : list Rule) : apply_rules rules "" = "".
Proof.
  induction rules as [|[o n] rest IH]; [reflexivity|].
  cbn [apply_rules fold_left fst snd]. rewrite Replace_empty. exact IH.
Qed.

(** A block that no rule can start in is passed over by all the calls. *)
Lemma apply_rules_block (rules : list Rule) (x r : string) :
  all_block rules x = true ->
  apply_rules rules (x ++ r) = (x ++ apply_rules rules r)%string.
Proof.
  revert r. induction rules as [|[o n] rest IH]; intros r H; [reflexivity|].
  cbn [all_block forallb fst] in H. apply andb_prop in H.
  destruct H as [H1 H2].
  cbn [apply_rules fold_left fst snd]. rewrite Replace_block by exact H1.
  now apply IH.
Qed.

(** An instance of the left-hand side of one rule is replaced by the
    right-hand side of that rule, by that rule's call. *)
Lemma apply_rules_hit (pre post : list Rule) (old new r : string) :
  old <> "" -> all_block pre old = true -> all_block post new = true ->
  apply_rules (pre ++ (old, new) :: post) (old ++ r)
  = (new ++ apply_rules (pre ++ (old, new) :: post) r)%string.
Proof.
  intros Hne Hpre Hpost. rewrite !apply_rules_app.
  rewrite (apply_rules_block pre old r Hpre).
  change (apply_rules ((old, new) :: post) ?t)
    with (apply_rules post (Replace t old new)).
  rewrite Replace_hit by exact Hne.
  now rewrite (apply_rules_block post new _ Hpost).
Qed.

(** A byte at which no rule matches is copied by all the calls. *)
Lemma apply_rules_miss (rules : list Rule) (c : ascii) (s : string) :
  nonempty_lhs rules = true -> no_feeding rules = true ->
  (forall r, In r rules -> HasPrefix (String c s) (fst r) = false) ->
  apply_rules rules (String c s) = String c (apply_rules rules s).
Proof.
  revert s. induction rules as [|[o n] rest IH]; intros s Hne Hnf Hmiss;
    [reflexivity|].
  cbn [nonempty_lhs forallb fst] in Hne. apply andb_prop in Hne.
  destruct Hne as [Ho Hne]. apply negb_true_iff, String.eqb_neq in Ho.
  cbn [no_feeding] in Hnf. apply andb_prop in Hnf. destruct Hnf as [Hf Hnf].
  cbn [apply_rules fold_left fst snd].
  assert (Hc : Replace (String c s) o n = String c (Replace s o n)).
  { apply Replace_miss; [exact Ho|]. apply (Hmiss (o, n)). now left. }
  rewrite Hc. apply IH; trivial.
  intros r Hr. destruct (HasPrefix (String c (Replace s o n)) (fst r)) eqn:E;
    [|reflexivity].
  rewrite <- Hc in E. apply HasPrefix_Replace_inv in E.
  - rewrite Hmiss in E by (now right). discriminate.
  - rewrite forallb_forall in Hf. now apply Hf.
Qed.

Lemma isolated_from_split (before pre post : list Rule) (r : Rule) :
  isolated_from before (pre ++ r :: post) = true ->
  all_block (before ++ pre) (fst r) = true /\ all_block post (snd r) = true.
Proof.
  revert before. induction pre as [|p pre IH]; intros before H.
  - cbn [app isolated_from] in H. rewrite List.app_nil_r.
    apply andb_prop in H. destruct H as [H _]. now apply andb_prop in H.
  - cbn [app isolated_from] in H. apply andb_prop in H. destruct H as [_ H].
    apply IH in H. now rewrite <- List.app_assoc in H.
Qed.

Lemma all_block_app_r (a b : list Rule) (x : string) :
  all_block (a ++ b) x = true -> all_block b x = true.
Proof. unfold all_block. rewrite forallb_app. intro H. now apply andb_prop in H. Qed.

(** The calls one after the other compute what one scan with all the rules
    computes, for rules that do not interfere. *)
Lemma apply_rules_Rewrite (rules : list Rule) :
  nonempty_lhs rules = true -> no_feeding rules = true ->
  isolated rules = true ->
  forall s, apply_rules rules s = Rewrite rules s.
Proof.
  intros Hne Hnf Hiso s.
  remember (String.length s) as k eqn:Hk. revert s Hk.
  induction k as [k IH] using lt_wf_ind. intros s Hk.
  destruct s as [|c s].
  - now rewrite apply_rules_empty.
  - destruct (find_rule rules (String c s)) as [[o n]|] eqn:E.
    + destruct (find_rule_Some _ _ _ _ E) as (Ho & Hp & pre & post & Hr).
      apply HasPrefix_spec in Hp. destruct Hp as [r Hs].
      rewrite Hs in *. rewrite (Rewrite_hit _ _ _ _ E).
      destruct (isolated_from_split [] pre post (o, n)) as [B1 B2];
        [unfold isolated in Hiso; rewrite Hr in Hiso; exact Hiso|].
      cbn [app fst snd] in B1, B2.
      assert (Hap : apply_rules rules (o ++ r)
                    = (n ++ apply_rules rules r)%string)
        by (rewrite Hr; now apply apply_rules_hit).
      rewrite Hap. f_equal.
      apply (IH (String.length r)); [|reflexivity].
      rewrite Hk, length_app. destruct o; [congruence | simpl; lia].
    + rewrite (Rewrite_miss _ _ _ E).
      rewrite apply_rules_miss; trivial.
      * f_equal. apply (IH (String.length s)); [|reflexivity].
        rewrite Hk. simpl. lia.
      * intros r Hr. apply (find_rule_None _ _ E r Hr).
        unfold nonempty_lhs in Hne. rewrite forallb_forall in Hne.
        specialize (Hne r Hr). apply negb_true_iff in Hne.
        now apply String.eqb_neq in Hne.
Qed.

Lemma apply_rules_absent (rules : list Rule) (s : string) :
  (forall r, In r rules -> Contains s (fst r) = false) ->
  apply_rules rules s = s.
Proof.
  induction rules as [|[o n] rest IH]; intro H; [reflexivity|].
  cbn [apply_rules fold_left fst snd].
  rewrite Replace_absent by (apply (H (o, n)); now left).
  apply IH. intros r Hr. apply H. now right.
Qed.

Lemma apply_rules_neutral (rules : list Rule) (s p : string) :
  neutral rules p = true ->
  Contains s p = false -> Contains (apply_rules rules s) p = false.
Proof.
  revert s. induction rules as [|[o n] rest IH]; intros s Hn H; [exact H|].
  cbn [neutral forallb fst snd] in Hn. apply andb_prop in Hn.
  destruct Hn as [Hn Hrest]. apply andb_prop in Hn. destruct Hn as [H1 H2].
  cbn [apply_rules fold_left fst snd]. apply IH; [exact Hrest|].
  now apply Contains_Replace_absent.
Qed.

Lemma apply_rules_clears (rules : list Rule) (s : string) :
  clears rules = true ->
  forall r, In r rules -> Contains (apply_rules rules s) (fst r) = false.
Proof.
  revert s. induction rules as [|[o n] rest IH]; intros s Hc r Hr;
    [destruct Hr|].
  cbn [clears] in Hc. apply andb_prop in Hc. destruct Hc as [Hn Hc].
  cbn [apply_rules fold_left fst snd]. destruct Hr as [<-|Hr].
  - cbn [neutral forallb fst snd] in Hn. apply andb_prop in Hn.
    destruct Hn as [Hn Hrest]. apply andb_prop in Hn. destruct Hn as [H1 H2].
    apply apply_rules_neutral; [exact Hrest|]. now apply Replace_clears.
  - now apply IH.
Qed.

Lemma apply_rules_app_block (rules : list Rule) (A x B : string) :
  guarded rules x = true ->
  apply_rules rules (A ++ x ++ B)
  = (apply_rules rules A ++ x ++ apply_rules rules B)%string.
Proof.
  revert A B. induction rules as [|[o n] rest IH]; intros A B H;
    [reflexivity|].
  cbn [guarded forallb fst] in H. apply andb_prop in H. destruct H as [H Hr].
  apply andb_prop in H. destruct H as [H1 H2].
  cbn [apply_rules fold_left fst snd].
  rewrite Replace_app_block by assumption. now apply IH.
Qed.

(** Wherever the left-hand side of a separable rule stands in the text, the
    calls put its right-hand side, between what they make of the text before
    and of the text behind. *)
Lemma apply_rules_at (rules : list Rule) (old new A B : string) :
  separable rules = true -> In (old, new) rules -> new <> "" ->
  apply_rules rules (A ++ old ++ B)
  = (apply_rules rules A ++ new ++ apply_rules rules B)%string.
Proof.
  intros Hs Hin Hne. apply In_nth_error in Hin. destruct Hin as [k Hk].
  unfold separable in Hs. rewrite forallb_forall in Hs.
  assert (Hlt : k < List.length rules).
  { destruct (le_lt_dec (List.length rules) k) as [L|L]; [|exact L].
    apply nth_error_None in L. unfold Rule in *. congruence. }
  specialize (Hs k (proj2 (in_seq _ _ _) (conj (Nat.le_0_l k) Hlt))).
  unfold Rule in *. rewrite Hk in Hs. apply orb_prop in Hs.
  destruct Hs as [Hs|Hs]; [now apply String.eqb_eq in Hs|].
  apply andb_prop in Hs. destruct Hs as [Hs Hpost].
  apply andb_prop in Hs. destruct Hs as [Hpre Hself].
  assert (E : rules = (firstn k rules ++ (old, new) :: skipn (S k) rules)%list).
  { clear - Hk. revert k Hk. induction rules as [|r rules IH]; intros [|k] Hk;
      simpl in Hk; try discriminate.
    - now injection Hk as ->.
    - cbn [firstn skipn app]. f_equal. now apply IH. }
  set (pre := firstn k rules) in *. set (post := skipn (S k) rules) in *.
  rewrite E, !apply_rules_app.
  rewrite (apply_rules_app_block pre A old B Hpre).
  change (apply_rules ((old, new) :: post) ?t)
    with (apply_rules post (Replace t old new)).
  rewrite Replace_app_hit by exact Hself.
  now rewrite (apply_rules_app_block post _ new _ Hpost).
Qed.

(** Rules whose replacement texts are shorter than their patterns never make
    the text longer. *)
Lemma length_apply_rules (rules : list Rule) (s : string) :
  (forall r, In r rules -> String.length (snd r) < String.length (fst r)) ->
  String.length (apply_rules rules s) <= String.length s.
Proof.
  revert s. induction rules as [|[o n] rest IH]; intros s H; [reflexivity|].
  cbn [apply_rules fold_left fst snd].
  pose proof (proj1 (length_Replace s o n (H (o, n) (or_introl eq_refl)))).
  assert (Hr : forall r, In r rest ->
                         String.length (snd r) < String.length (fst r))
    by (intros r Hr; apply H; now right).
  specialize (IH (Replace s o n) Hr). unfold apply_rules in IH. lia.
Qed.

(** With such rules, a text that the calls give back as it was holds none of
    the patterns. *)
Lemma apply_rules_fixed (rules : list Rule) (s : string) :
  (forall r, In r rules -> String.length (snd r) < String.length (fst r)) ->
  apply_rules rules s = s ->
  forall r, In r rules -> Contains s (fst r) = false.
Proof.
  induction rules as [|[o n] rest IH]; intros H E r Hr; [destruct Hr|].
  assert (Hrest : forall r, In r rest ->
                            String.length (snd r) < String.length (fst r))
    by (intros r0 Hr0; apply H; now right).
  pose proof (length_Replace s o n (H (o, n) (or_introl eq_refl))) as [_ Lt].
  cbn [apply_rules fold_left fst snd] in E.
  destruct (Contains s o) eqn:C.
  - exfalso. specialize (Lt eq_refl).
    pose proof (length_apply_rules rest (Replace s o n) Hrest) as Le.
    unfold apply_rules in Le. rewrite E in Le. lia.
  - rewrite (Replace_absent s o n C) in E.
    destruct Hr as [<-|Hr]; [exact C|]. now apply IH.
Qed.

End PassFacts.

(** ** The paragraph formatter *)

Module FormatFacts.

Import GoStringFacts PassFacts.

Lemma Format_apply_rules (s : string) : Format s = apply_rules format_rules s.
Proof. reflexivity. Qed.

Lemma Format_stages (s : string) :
  Format s = Replace (Replace (apply_rules markup_rules s) newline "") ".  " ". ".
Proof. reflexivity. Qed.

(** The indent of a quoted block passes through the formatter. *)
Lemma Format_indent (st : string) : Format ("    " ++ st) = ("    " ++ Format st)%string.
Proof.
  rewrite !Format_apply_rules. now apply apply_rules_block.
Qed.

(** Collapsing leaves a period followed by two spaces only where the argument
    had a period followed by three. *)
Lemma collapse_clears (u : string) :
  Contains u ".   " = false -> Contains (Replace u ".  " ". ") ".  " = false.
Proof.
  apply (Replace_ind ".  " ". "
           (fun s t => Contains s ".   " = false -> Contains t ".  " = false));
    try discriminate.
  - reflexivity.
  - intros r IH H.
    assert (Hr : Contains r ".   " = false).
    { destruct (Contains r ".   ") eqn:E; [|reflexivity].
      now rewrite (Contains_app_r ".  " r _ E) in H. }
    specialize (IH Hr).
    destruct (Replace r ".  " ". ") as [|x R] eqn:ER; [reflexivity|].
    destruct (Ascii.eqb " " x) eqn:Ex.
    + exfalso.
      assert (E : HasPrefix (Replace r ".  " ". ") " " = true)
        by (rewrite ER; cbn [HasPrefix]; now rewrite Ex).
      apply HasPrefix_Replace_inv in E; [|reflexivity].
      apply HasPrefix_spec in E. destruct E as [r' ->].
      cbn in H. discriminate.
    + change ((". " ++ String x R)%string)
        with (String "." (String " " (String x R))).
      cbn [Contains] in *. rewrite IH. cbn [HasPrefix]. rewrite Ex.
      reflexivity.
  - intros c s0 Hmiss IH H. apply Contains_false_cons in H.
    destruct H as [_ H]. specialize (IH H).
    cbn [Contains]. rewrite IH, orb_false_r.
    destruct (HasPrefix (String c (Replace s0 ".  " ". ")) ".  ") eqn:E;
      [|reflexivity].
    cbn [HasPrefix] in E, Hmiss. apply andb_prop in E. destruct E as [E1 E2].
    rewrite E1 in Hmiss. cbn [andb] in Hmiss.
    apply (HasPrefix_Replace_inv ".  " ". " s0 "  ") in E2; [|reflexivity].
    cbn [HasPrefix] in E2. congruence.
Qed.

(** The markup calls leave no tag behind. *)
Lemma markup_clears (s : string) (r : Rule) :
  In r markup_rules -> Contains (apply_rules markup_rules s) (fst r) = false.
Proof. now apply apply_rules_clears. Qed.

(** Text without newline and without a period followed by three spaces is
    formatted into text that the formatter leaves alone. *)
Lemma Format_fixpoint (s : string) :
  Contains s newline = false -> Contains s ".   " = false ->
  forall r, In r format_rules -> Contains (Format s) (fst r) = false.
Proof.
  intros Hnl Hsp r Hr. rewrite Format_stages.
  set (t := apply_rules markup_rules s).
  assert (Tnl : Contains t newline = false)
    by (now apply apply_rules_neutral).
  assert (Tsp : Contains t ".   " = false)
    by (now apply apply_rules_neutral).
  rewrite (Replace_absent t newline "" Tnl).
  unfold format_rules in Hr. apply in_app_or in Hr.
  destruct Hr as [Hr|[<-|[<-|[]]]]; cbn [fst].
  - assert (Hn : neutral collapse_rules (fst r) = true).
    { repeat (destruct Hr as [<-|Hr]; [reflexivity|]). destruct Hr. }
    cbn [neutral collapse_rules forallb fst snd] in Hn.
    apply andb_prop in Hn. destruct Hn as [Hn _].
    apply andb_prop in Hn. destruct Hn as [H1 H2].
    apply Contains_Replace_absent; trivial.
    now apply markup_clears.
  - now apply Contains_Replace_absent.
  - now apply collapse_clears.
Qed.

(** Every instance of a tag, and of a period followed by two spaces, is
    replaced where it stands. *)
Lemma Format_at (a b old new : string) :
  In (old, new) (markup_rules ++ collapse_rules) ->
  Format (a ++ old ++ b) = (Format a ++ new ++ Format b)%string.
Proof.
  intro Hin. rewrite !Format_apply_rules.
  apply apply_rules_at; [reflexivity | |].
  - unfold format_rules. apply in_app_or in Hin. apply in_or_app.
    destruct Hin as [Hin|[Hin|[]]]; [now left|]. right. right. now left.
  - repeat (destruct Hin as [Hin|Hin];
            [injection Hin as <- <-; discriminate|]).
    destruct Hin.
Qed.

(** The result has no newline. *)
Lemma Format_no_newline (s : string) : Contains (Format s) newline = false.
Proof.
  rewrite Format_stages. apply Contains_Replace_absent; try reflexivity.
  apply Replace_delete_byte.
Qed.

(** Text without any of the ten patterns is left as it is. *)
Lemma Format_plain (s : string) :
  (forall r, In r format_rules -> Contains s (fst r) = false) -> Format s = s.
Proof. intro H. rewrite Format_apply_rules. now apply apply_rules_absent. Qed.

(** [Format] is the collapse of the double spaces in the text that the nine
    calls before it leave. *)
Lemma Format_collapse (s : string) :
  Format s = Replace (apply_rules scan_rules s) ".  " ". ".
Proof. reflexivity. Qed.

(** A text that [Format] gives back as it was holds none of the ten
    patterns. *)
Lemma Format_fixed (s : string) :
  Format s = s -> forall r, In r format_rules -> Contains s (fst r) = false.
Proof.
  rewrite Format_apply_rules. apply apply_rules_fixed.
  intros r Hr. repeat (destruct Hr as [<-|Hr]; [cbn; lia|]). destruct Hr.
Qed.

(** The collapse keeps every tag. *)
Lemma collapse_keeps_tag (u : string) (r : Rule) :
  In r markup_rules ->
  Contains u (fst r) = true -> Contains (Replace u ".  " ". ") (fst r) = true.
Proof.
  intro Hr. apply Contains_Replace_keep; [discriminate | |];
    repeat (destruct Hr as [<-|Hr]; [reflexivity|]); destruct Hr.
Qed.

(** The collapse creates no tag. *)
Lemma collapse_no_tag (u : string) (r : Rule) :
  In r markup_rules ->
  Contains u (fst r) = false -> Contains (Replace u ".  " ". ") (fst r) = false.
Proof.
  intro Hr. apply Contains_Replace_absent;
    repeat (destruct Hr as [<-|Hr]; [reflexivity|]); destruct Hr.
Qed.

(** A period followed by three spaces is collapsed to a period followed by
    two. *)
Lemma collapse_keeps_gap (u : string) :
  Contains u ".   " = true -> Contains (Replace u ".  " ". ") ".  " = true.
Proof.
  apply (Replace_ind ".  " ". "
           (fun s t => Contains s ".   " = true -> Contains t ".  " = true));
    try discriminate.
  - intros r IH H. destruct r as [|x r']; [discriminate|].
    destruct (Ascii.eqb " " x) eqn:Ex.
    + apply Ascii.eqb_eq in Ex. subst x.
      rewrite (Replace_miss ".  " ". " " " r') by (discriminate || reflexivity).
      reflexivity.
    + change ((".  " ++ String x r')%string)
        with (String "." (String " " (String " " (String x r')))) in H.
      cbn [Contains HasPrefix] in H. rewrite Ex in H.
      cbn [andb orb] in H. rewrite andb_false_r in H. cbn [orb] in H.
      apply (Contains_app_r ". "). apply IH.
      cbn [Contains HasPrefix]. exact H.
  - intros c s0 Hmiss IH H. cbn [Contains] in H.
    apply orb_true_iff in H. destruct H as [H|H].
    + exfalso. apply HasPrefix_spec in H. destruct H as [r E].
      rewrite E in Hmiss. discriminate.
    + apply Contains_cons. now apply IH.
Qed.

End FormatFacts.

(** ** The classifier *)

Module ClassifierFacts.

Import GoStringFacts.

Lemma slice_to_ok (s : string) (n : nat) :
  n <= String.length s -> slice_to s n = Ok (take n s).
Proof.
  intro H. unfold slice_to. now rewrite (proj2 (Nat.leb_le _ _) H).
Qed.

Lemma slice_to_short (s : string) (n : nat) :
  String.length s < n -> slice_to s n = Crash SliceBounds.
Proof.
  intro H. unfold slice_to.
  now rewrite (proj2 (Nat.leb_gt _ _) H).
Qed.

Lemma length_update {A : Type} (l : list A) (i : nat) (f : A -> A) :
  List.length (update l i f) = List.length l.
Proof.
  revert i. induction l as [|x l IH]; intros [|i]; simpl; auto.
Qed.

Lemma update_ext {A : Type} (l : list A) (i : nat) (f g : A -> A) (x : A) :
  nth_error l i = Some x -> f x = g x -> update l i f = update l i g.
Proof.
  revert i. induction l as [|y l IH]; intros [|i] H E; simpl in *;
    try discriminate.
  - injection H as ->. now rewrite E.
  - f_equal. now apply IH.
Qed.

Lemma nth_error_update_eq {A : Type} (l : list A) (i : nat) (f : A -> A) :
  nth_error (update l i f) i = option_map f (nth_error l i).
Proof.
  revert i. induction l as [|y l IH]; intros [|i]; simpl; auto.
Qed.

Lemma nth_error_update_neq {A : Type} (l : list A) (i j : nat) (f : A -> A) :
  i <> j -> nth_error (update l i f) j = nth_error l j.
Proof.
  revert i j. induction l as [|y l IH]; intros [|i] [|j] H; simpl; auto.
  congruence.
Qed.

Lemma find_arc_Some (key : string) (arcs : list Arc) (i : nat) :
  find_arc key arcs = Some i ->
  exists arc, nth_error arcs i = Some arc /\ Identifier arc = key /\
    forall j arc', j < i -> nth_error arcs j = Some arc' ->
                   Identifier arc' <> key.
Proof.
  revert i. induction arcs as [|a arcs IH]; intros i H; [discriminate|].
  cbn [find_arc] in H. destruct (String.eqb_spec key (Identifier a)) as [E|E].
  - injection H as <-. exists a. repeat split; auto. intros j ? Hj. lia.
  - destruct (find_arc key arcs) as [k|]; [|discriminate].
    injection H as <-. destruct (IH k eq_refl) as (arc & H1 & H2 & H3).
    exists arc. repeat split; auto.
    intros [|j] arc' Hj Hn; simpl in Hn.
    + injection Hn as <-. congruence.
    + apply (H3 j); [lia | exact Hn].
Qed.

Lemma find_arc_None (key : string) (arcs : list Arc) :
  find_arc key arcs = None ->
  forall arc, In arc arcs -> Identifier arc <> key.
Proof.
  induction arcs as [|a arcs IH]; intros H arc []; cbn [find_arc] in H;
    destruct (String.eqb_spec key (Identifier a)) as [E|E]; try discriminate;
    destruct (find_arc key arcs); try discriminate; subst; auto.
Qed.

(** With a title of two bytes or more, [WhichArc] finds the first arc whose
    identifier is the key of the title, or reports that there is none. *)
Lemma WhichArc_from_long (ch : Chapter) (arcs : list Arc) (i : nat) :
  2 <= String.length (Title ch) ->
  WhichArc_from ch arcs i
  = Ok (match find_arc (arc_key (Title ch)) arcs with
        | Some k => (InList (i + k), None)
        | None => (Fresh, Some (no_match ch))
        end).
Proof.
  intro H. revert i. induction arcs as [|a arcs IH]; intro i; [reflexivity|].
  cbn [WhichArc_from find_arc]. rewrite (slice_to_ok _ _ H). cbn [bind].
  fold (arc_key (Title ch)).
  destruct (String.eqb (arc_key (Title ch)) (Identifier a)).
  - now rewrite Nat.add_0_r.
  - rewrite IH. destruct (find_arc (arc_key (Title ch)) arcs); simpl;
      [now rewrite Nat.add_succ_r | reflexivity].
Qed.

Lemma WhichArc_long (ch : Chapter) (arcs : list Arc) :
  2 <= String.length (Title ch) ->
  WhichArc ch arcs
  = Ok (match find_arc (arc_key (Title ch)) arcs with
        | Some k => (InList k, None)
        | None => (Fresh, Some (no_match ch))
        end).
Proof. intro H. unfold WhichArc. now rewrite WhichArc_from_long. Qed.

(** With a shorter title the prefix expression panics as soon as there is an
    arc to compare with. *)
Lemma WhichArc_short (ch : Chapter) (arcs : list Arc) :
  String.length (Title ch) < 2 -> arcs <> [] ->
  WhichArc ch arcs = Crash SliceBounds.
Proof.
  intros H Hne. destruct arcs as [|a arcs]; [congruence|].
  unfold WhichArc. cbn [WhichArc_from]. now rewrite slice_to_short.
Qed.

(** Without arcs the loop body never runs. *)
Lemma WhichArc_nil (ch : Chapter) : WhichArc ch [] = Ok (Fresh, Some (no_match ch)).
Proof. reflexivity. Qed.

Lemma WhichArc_Crash (ch : Chapter) (arcs : list Arc) (p : Panic) :
  WhichArc ch arcs = Crash p -> p = SliceBounds.
Proof.
  destruct (le_lt_dec 2 (String.length (Title ch))) as [H|H].
  - rewrite WhichArc_long by exact H. discriminate.
  - destruct arcs; [discriminate|].
    rewrite WhichArc_short by (trivial; discriminate). congruence.
Qed.

(** What [add_chapter] does with a title of two bytes or more. *)
Lemma add_chapter_long (arcs : list Arc) (ch : Chapter) :
  2 <= String.length (Title ch) ->
  add_chapter arcs ch
  = Ok (match find_arc (arc_key (Title ch)) arcs with
        | Some k => update arcs k
                      (fun a => set_Chapters a (Chapters a ++ [ch])%list)
        | None => arcs
        end).
Proof.
  intro H. unfold add_chapter.
  destruct (String.eqb_spec (Title ch) "") as [E|_];
    [rewrite E in H; simpl in H; lia|].
  rewrite (WhichArc_long _ _ H).
  destruct (find_arc (arc_key (Title ch)) arcs) as [k|] eqn:E;
    cbn [bind assign_chapters chapters_of]; [|reflexivity].
  destruct (find_arc_Some _ _ _ E) as (a & Ha & _).
  rewrite Ha. f_equal. now apply (update_ext arcs k _ _ a).
Qed.

Lemma add_chapter_Crash (arcs : list Arc) (ch : Chapter) (p : Panic) :
  add_chapter arcs ch = Crash p -> p = SliceBounds.
Proof.
  unfold add_chapter. destruct (String.eqb (Title ch) ""); [discriminate|].
  destruct (WhichArc ch arcs) as [[a e]|q] eqn:E; cbn [bind];
    [discriminate|].
  intro H. injection H as <-. now apply (WhichArc_Crash ch arcs).
Qed.

Lemma add_chapter_length (arcs arcs' : list Arc) (ch : Chapter) :
  add_chapter arcs ch = Ok arcs' -> List.length arcs' = List.length arcs.
Proof.
  unfold add_chapter. destruct (String.eqb (Title ch) "");
    [now intros [= <-]|].
  destruct (WhichArc ch arcs) as [[[i|] e]|q]; cbn [bind assign_chapters];
    intros [= <-]; [apply length_update | reflexivity].
Qed.

(** The splice of [insert_missing] on a sequence with a first element. *)
Lemma splice_at_1 (c0 c : Chapter) (rest : list Chapter) :
  let chs := ((c0 :: rest) ++ [c])%list in
  (dst <- slice_from chs (1 + 1) ;;
   src <- slice_from chs 1 ;;
   set_index (copy_at chs (1 + 1) dst src) 1 c)
  = Ok (c0 :: c :: rest).
Proof.
  cbn zeta. destruct rest as [|c1 rest]; [reflexivity|].
  change (((c0 :: c1 :: rest) ++ [c])%list) with (c0 :: c1 :: (rest ++ [c]))%list.
  unfold slice_from. cbn [List.length Nat.add Nat.leb bind skipn].
  unfold copy_at. cbn [firstn skipn List.length Nat.add].
  rewrite Nat.min_l by lia.
  assert (L : List.length (rest ++ [c]) = S (List.length rest))
    by (rewrite List.length_app; simpl; lia).
  rewrite L. cbn [firstn].
  assert (T : firstn (List.length rest) (rest ++ [c]) = rest).
  { rewrite firstn_app, Nat.sub_diag, firstn_all. simpl. apply List.app_nil_r. }
  assert (K : skipn (S (List.length rest)) (rest ++ [c]) = []).
  { apply skipn_all2. lia. }
  rewrite T, K. unfold set_index. cbn [List.length app Nat.ltb Nat.leb].
  cbn [firstn skipn app]. now rewrite List.app_nil_r.
Qed.

Lemma add_chapter_nil (ch : Chapter) : add_chapter [] ch = Ok [].
Proof. unfold add_chapter. now destruct (String.eqb (Title ch) ""). Qed.

Lemma add_links_nil (links : list Link) : add_links [] links = Ok [].
Proof.
  induction links as [|l links IH]; [reflexivity|].
  cbn [add_links]. now rewrite add_chapter_nil.
Qed.

Lemma add_chapter_short (arcs : list Arc) (ch : Chapter) :
  String.length (Title ch) = 1 -> arcs <> [] ->
  add_chapter arcs ch = Crash SliceBounds.
Proof.
  intros H Hne. unfold add_chapter.
  destruct (String.eqb_spec (Title ch) "") as [E|_];
    [rewrite E in H; discriminate|].
  rewrite WhichArc_short by (trivial; lia). reflexivity.
Qed.

Lemma add_links_short (arcs : list Arc) (links : list Link) (l : Link) :
  arcs <> [] -> In l links -> String.length (Title (link_chapter l)) = 1 ->
  add_links arcs links = Crash SliceBounds.
Proof.
  intros Hne Hin Hl. revert arcs Hne.
  induction links as [|l0 links IH]; intros arcs Hne; [destruct Hin|].
  cbn [add_links]. destruct Hin as [->|Hin].
  - now rewrite add_chapter_short.
  - destruct (add_chapter arcs (link_chapter l0)) as [arcs'|p] eqn:E;
      cbn [bind].
    + apply IH; [exact Hin|]. apply add_chapter_length in E.
      destruct arcs'; [|discriminate]. destruct arcs; [congruence|discriminate].
    + now rewrite (add_chapter_Crash _ _ _ E).
Qed.

(** A link whose title has a single byte stops the run before any chapter is
    fetched: in [WhichArc] when there are arcs, and otherwise in the splice of
    the missing chapter, which then has no arc to go to. *)
Lemma skeleton_short_link (arcs : list Arc) (links : list Link) (l : Link) :
  In l links -> String.length (Title (link_chapter l)) = 1 ->
  skeleton arcs links = Crash SliceBounds.
Proof.
  intros Hin Hl. unfold skeleton. destruct arcs as [|a arcs].
  - now rewrite add_links_nil.
  - rewrite (add_links_short (a :: arcs) links l); trivial. discriminate.
Qed.

End ClassifierFacts.

(** ** The chapter task *)

Module ParseFacts.

Import GoStringFacts.

Lemma wrap_int_range (z : Z) : int_range z -> wrap_int z = z.
Proof.
  unfold int_range, min_int, max_int, wrap_int. intro H.
  rewrite Z.mod_small; lia.
Qed.

Lemma set_Url_same (ch : Chapter) : set_Url ch (Url ch) = ch.
Proof. now destruct ch. Qed.

Lemma with_scheme_idem (u : string) : with_scheme (with_scheme u) = with_scheme u.
Proof.
  unfold with_scheme. destruct (HasPrefix u "http") eqn:E.
  - now rewrite E.
  - reflexivity.
Qed.

Lemma with_scheme_HasPrefix (u : string) : HasPrefix (with_scheme u) "http" = true.
Proof.
  unfold with_scheme. destruct (HasPrefix u "http") eqn:E; [exact E | reflexivity].
Qed.

Lemma append_each {A : Type} (l acc : list A) :
  fold_left (fun xs x => (xs ++ [x])%list) l acc = (acc ++ l)%list.
Proof.
  revert acc. induction l as [|x l IH]; intro acc; simpl.
  - now rewrite List.app_nil_r.
  - now rewrite IH, <- List.app_assoc.
Qed.

Lemma collect_paragraphs (ps : list Paragraph) (sels : list Selection) :
  collect ps sels = (ps ++ paragraphs sels)%list.
Proof.
  unfold collect. revert ps. induction sels as [|s sels IH]; intro ps; simpl.
  - now rewrite List.app_nil_r.
  - rewrite IH. destruct (paragraph_of s); [|reflexivity].
    now rewrite <- List.app_assoc.
Qed.

Lemma paragraphs_app (a b : list Selection) :
  paragraphs (a ++ b) = (paragraphs a ++ paragraphs b)%list.
Proof. apply flat_map_app. Qed.

(** The three ways out of [Parse]. *)

Lemma Parse_abort (fetch : string -> option Document) (ch : Chapter) :
  (3 < Retries ch)%Z -> Parse fetch ch = Crash (Explicit (timed_out ch)).
Proof.
  intro H. unfold Parse. now rewrite (proj2 (Z.gtb_lt _ _) H).
Qed.

Lemma Parse_enter (fetch : string -> option Document) (ch : Chapter) :
  (Retries ch <= 3)%Z ->
  Parse fetch ch
  = let ch := set_Url ch (with_scheme (Url ch)) in
    match fetch (Url ch) with
    | None => Ok (set_Retries ch (wrap_int (Retries ch + 1)), [GoParse])
    | Some doc => Ok (filled ch doc, [SendDone true])
    end.
Proof.
  intro H. unfold Parse.
  assert (E : (Retries ch >? 3)%Z = false)
    by (rewrite Z.gtb_ltb; apply Z.ltb_ge; exact H).
  rewrite E. cbn zeta. unfold with_scheme.
  destruct (HasPrefix (Url ch) "http") eqn:P.
  - rewrite set_Url_same. destruct (fetch (Url ch)) as [doc|]; [|reflexivity].
    unfold filled, with_scheme. rewrite P.
    rewrite append_each, collect_paragraphs. reflexivity.
  - cbn [Url set_Url]. destruct (fetch ("https://" ++ Url ch)) as [doc|];
      [|reflexivity].
    unfold filled, with_scheme. cbn [Url set_Url Tags Paragraphs Retries].
    rewrite append_each, collect_paragraphs. reflexivity.
Qed.

Lemma Parse_failure (fetch : string -> option Document) (ch : Chapter) :
  (Retries ch <= 3)%Z -> fetch (with_scheme (Url ch)) = None ->
  Parse fetch ch
  = Ok (set_Retries (set_Url ch (with_scheme (Url ch)))
          (wrap_int (Retries ch + 1)), [GoParse]).
Proof.
  intros H F. rewrite (Parse_enter fetch ch H). cbn zeta.
  cbn [Url set_Url]. now rewrite F.
Qed.

Lemma Parse_success (fetch : string -> option Document) (ch : Chapter)
      (doc : Document) :
  (Retries ch <= 3)%Z -> fetch (with_scheme (Url ch)) = Some doc ->
  Parse fetch ch = Ok (filled ch doc, [SendDone true]).
Proof.
  intros H F. rewrite (Parse_enter fetch ch H). cbn zeta.
  cbn [Url set_Url]. rewrite F. unfold filled. cbn [Url set_Url].
  now rewrite with_scheme_idem.
Qed.

Lemma Parse_Ok_inv (fetch : string -> option Document) (ch ch' : Chapter)
      (effs : list Effect) :
  Parse fetch ch = Ok (ch', effs) -> (Retries ch <= 3)%Z.
Proof.
  intro H. destruct (Z_le_gt_dec (Retries ch) 3) as [L|G]; [exact L|].
  rewrite Parse_abort in H by lia. discriminate.
Qed.

End ParseFacts.

(** ** The fetch phase *)

Module FetchFacts.

Import ClassifierFacts ParseFacts.

(** *** Lists *)

Lemma remove_nth_split {A : Type} (l : list A) (k : nat) (x : A) :
  nth_error l k = Some x ->
  exists l1 l2, l = (l1 ++ x :: l2)%list /\ remove_nth k l = (l1 ++ l2)%list.
Proof.
  revert k. induction l as [|y l IH]; intros [|k] H; simpl in H;
    try discriminate.
  - injection H as ->. now exists [], l.
  - destruct (IH k H) as (l1 & l2 & -> & E).
    exists (y :: l1), l2. simpl. now rewrite E.
Qed.

Lemma map_update {A B : Type} (g : A -> B) (f : A -> A) (l : list A) (i : nat) :
  (forall x, g (f x) = g x) -> map g (update l i f) = map g l.
Proof.
  intro H. revert i. induction l as [|x l IH]; intros [|i]; simpl;
    rewrite ?H, ?IH; reflexivity.
Qed.

(** *** Slots *)

Lemma chapter_at_store_same (arcs : list Arc) (sl : Slot) (c ch : Chapter) :
  chapter_at arcs sl = Some c -> chapter_at (store arcs sl ch) sl = Some ch.
Proof.
  destruct sl as [i j]. unfold chapter_at, store. cbn [fst snd].
  rewrite nth_error_update_eq.
  destruct (nth_error arcs i) as [a|]; [|discriminate]. cbn [option_map].
  intro H. cbn [Chapters set_Chapters]. rewrite nth_error_update_eq, H.
  reflexivity.
Qed.

Lemma chapter_at_store_other (arcs : list Arc) (sl sl' : Slot) (ch : Chapter) :
  sl <> sl' -> chapter_at (store arcs sl ch) sl' = chapter_at arcs sl'.
Proof.
  destruct sl as [i j], sl' as [i' j']. intro H.
  unfold chapter_at, store. cbn [fst snd].
  destruct (Nat.eq_dec i i') as [<-|Hi].
  - rewrite nth_error_update_eq.
    destruct (nth_error arcs i) as [a|]; [|reflexivity]. cbn [option_map].
    cbn [Chapters set_Chapters]. apply nth_error_update_neq. congruence.
  - now rewrite nth_error_update_neq.
Qed.

Lemma shape_store (arcs : list Arc) (sl : Slot) (ch : Chapter) :
  shape (store arcs sl ch) = shape arcs.
Proof.
  unfold shape, store. apply map_update. intro a.
  cbn [Identifier ArcTitle Chapters set_Chapters].
  now rewrite length_update.
Qed.

Lemma In_arc_slots (i i' j : nat) (a : Arc) :
  In (i', j) (arc_slots i a) <-> i' = i /\ j < List.length (Chapters a).
Proof.
  unfold arc_slots. rewrite in_map_iff. split.
  - intros (x & E & Hx). injection E as <- <-. apply in_seq in Hx. lia.
  - intros [-> Hj]. exists j. split; [reflexivity|]. apply in_seq. lia.
Qed.

Lemma In_slots_from (b i j : nat) (arcs : list Arc) :
  In (i, j) (slots_from b arcs) <->
  b <= i /\ exists a, nth_error arcs (i - b) = Some a /\
                      j < List.length (Chapters a).
Proof.
  revert b. induction arcs as [|a0 arcs IH]; intro b; cbn [slots_from].
  - split; [intros [] | intros (_ & a & H & _)]. now destruct (i - b).
  - rewrite in_app_iff, In_arc_slots, IH. split.
    + intros [[-> Hj] | (Hb & a & Ha & Hj)].
      * split; [lia|]. exists a0. now rewrite Nat.sub_diag.
      * split; [lia|]. exists a. split; [|exact Hj].
        replace (i - b) with (S (i - S b)) by lia. exact Ha.
    + intros (Hb & a & Ha & Hj). destruct (Nat.eq_dec i b) as [->|Hne].
      * left. rewrite Nat.sub_diag in Ha. injection Ha as ->. now split.
      * right. split; [lia|]. exists a. split; [|exact Hj].
        replace (i - b) with (S (i - S b)) in Ha by lia. exact Ha.
Qed.

Lemma In_slots (arcs : list Arc) (sl : Slot) :
  In sl (slots arcs) <-> chapter_at arcs sl <> None.
Proof.
  destruct sl as [i j]. unfold slots, chapter_at. cbn [fst snd].
  rewrite In_slots_from, Nat.sub_0_r. split.
  - intros (_ & a & -> & Hj). now apply nth_error_Some.
  - intro H. split; [lia|].
    destruct (nth_error arcs i) as [a|]; [|congruence].
    exists a. split; [reflexivity | now apply nth_error_Some].
Qed.

Lemma NoDup_arc_slots (i : nat) (a : Arc) : NoDup (arc_slots i a).
Proof.
  unfold arc_slots. apply NoDup_map_NoDup_ForallPairs; [|apply seq_NoDup].
  intros x y _ _ E. now injection E.
Qed.

Lemma NoDup_slots_from (b : nat) (arcs : list Arc) : NoDup (slots_from b arcs).
Proof.
  revert b. induction arcs as [|a arcs IH]; intro b; cbn [slots_from].
  - constructor.
  - apply NoDup_app; [apply NoDup_arc_slots | apply IH |].
    intros [i j] H1 H2. apply In_arc_slots in H1. apply In_slots_from in H2.
    lia.
Qed.

Lemma counted_small (n : nat) :
  (Z.of_nat n <= max_int)%Z -> counted n = Z.of_nat n.
Proof.
  unfold counted, max_int. induction n as [|n IH]; intro H; [reflexivity|].
  rewrite Nat.iter_succ, IH by lia.
  unfold wrap_int. rewrite Z.mod_small; lia.
Qed.

(** *** The invariant *)

Section Preservation.

Variable net : nat -> string -> option Document.
Variables Pend Fill : Chapter -> Chapter -> Prop.
Variable sk : list Arc.

(** A call on the chapter of a running goroutine either reschedules itself
    and leaves the chapter pending, or sends once and leaves it filled. *)
Hypothesis Parse_cases :
  forall t c c' ch' effs,
    Pend c c' -> Parse (net t) c' = Ok (ch', effs) ->
    (effs = [GoParse] /\ Pend c ch') \/ (effs = [SendDone true] /\ Fill c ch').

Hypothesis Pend_refl : forall c, Pend c c.

Lemma launch_invariant :
  (Z.of_nat (List.length (slots sk)) <= max_int)%Z ->
  invariant Pend Fill sk (launch sk).
Proof.
  intro B. constructor; cbn [launch sys_arcs running chapters assembling].
  - reflexivity.
  - apply NoDup_slots_from.
  - now apply counted_small.
  - exact B.
  - discriminate.
  - intros sl H. now apply In_slots.
  - intros sl c H. exists c. repeat split; auto.
    intro N. exfalso. apply N, In_slots. congruence.
Qed.

Lemma step_invariant (t k : nat) (st st' : System) :
  invariant Pend Fill sk st -> step (net t) k st = Ok st' ->
  invariant Pend Fill sk st'.
Proof.
  intros I H. unfold step in H.
  destruct (nth_error (running st) k) as [sl|] eqn:Ek;
    [|injection H as <-; exact I].
  pose proof (nth_error_In _ _ Ek) as Hin.
  destruct (chapter_at sk sl) as [c|] eqn:Esk;
    [|now destruct (inv_valid _ _ _ _ I sl Hin)].
  destruct (inv_slots _ _ _ _ I sl c Esk) as (c' & Hc' & HP & _).
  rewrite Hc' in H.
  destruct (Parse (net t) c') as [[ch' effs]|p] eqn:EP; cbn [bind] in H;
    [|discriminate].
  destruct (remove_nth_split _ _ _ Ek) as (l1 & l2 & El & Er).
  pose proof (inv_nodup _ _ _ _ I) as ND. rewrite El in ND.
  pose proof (NoDup_remove_1 _ _ _ ND) as ND1.
  pose proof (NoDup_remove_2 _ _ _ ND) as ND2.
  pose proof (inv_bound _ _ _ _ I) as B.
  pose proof (inv_count _ _ _ _ I) as C.
  rewrite El, List.length_app in B, C. cbn [List.length] in B, C.
  assert (Hother : forall sl0, sl0 <> sl ->
            (In sl0 (running st) <-> In sl0 (l1 ++ l2)%list)).
  { intros sl0 Hne. rewrite El, !in_app_iff. cbn [In]. intuition congruence. }
  destruct (Parse_cases t c c' ch' effs (HP Hin) EP) as [[-> HP'] | [-> HF]].
  - (* rescheduled *)
    cbn [perform_all perform bind sys_arcs running chapters assembling] in H.
    injection H as <-. rewrite Er.
    constructor; cbn [sys_arcs running chapters assembling].
    + rewrite shape_store. apply (inv_shape _ _ _ _ I).
    + apply NoDup_app; [exact ND1 | repeat constructor; auto |].
      intros x Hx [<-|[]]. auto.
    + rewrite C, !List.length_app. cbn [List.length]. lia.
    + rewrite !List.length_app. cbn [List.length]. lia.
    + intro A. apply (inv_closed _ _ _ _ I) in A. rewrite A in Hin.
      destruct Hin.
    + intros sl0 H0. apply (inv_valid _ _ _ _ I). rewrite El.
      rewrite !in_app_iff in *. cbn [In] in *. intuition auto.
    + intros sl0 c0 H0. destruct (slot_eq_dec sl0 sl) as [->|Hne].
      * exists ch'. rewrite (chapter_at_store_same _ _ c' ch' Hc').
        assert (c0 = c) by congruence. subst c0. repeat split; auto.
        intro N. exfalso. apply N. rewrite in_app_iff. right. now left.
      * destruct (inv_slots _ _ _ _ I sl0 c0 H0) as (c0' & E0 & P0 & F0).
        exists c0'. rewrite chapter_at_store_other by congruence.
        repeat split; auto.
        -- intro Hi. apply P0, Hother; [exact Hne|].
           rewrite in_app_iff in Hi. cbn [In] in Hi. intuition congruence.
        -- intro N. apply F0. intro Hi. apply N. rewrite in_app_iff. left.
           now apply Hother.
  - (* filled, and the send received *)
    cbn [perform_all perform bind sys_arcs running chapters assembling] in H.
    destruct (assembling st) eqn:A.
    { apply (inv_closed _ _ _ _ I) in A. rewrite A in Hin. destruct Hin. }
    injection H as <-. rewrite Er.
    assert (W : wrap_int (chapters st - 1)
                = Z.of_nat (List.length (l1 ++ l2))).
    { rewrite C, List.length_app. rewrite wrap_int_range; [lia|].
      unfold int_range, min_int, max_int in *. lia. }
    constructor; cbn [sys_arcs running chapters assembling].
    + rewrite shape_store. apply (inv_shape _ _ _ _ I).
    + exact ND1.
    + exact W.
    + rewrite List.length_app. lia.
    + rewrite W. intro Z0. apply Z.eqb_eq in Z0.
      destruct (l1 ++ l2)%list; [reflexivity | cbn [List.length] in Z0; lia].
    + intros sl0 H0. apply (inv_valid _ _ _ _ I). rewrite El.
      rewrite !in_app_iff in *. cbn [In] in *. intuition auto.
    + intros sl0 c0 H0. destruct (slot_eq_dec sl0 sl) as [->|Hne].
      * exists ch'. rewrite (chapter_at_store_same _ _ c' ch' Hc').
        assert (c0 = c) by congruence. subst c0. repeat split; auto.
        intro Hi. now destruct (ND2 Hi).
      * destruct (inv_slots _ _ _ _ I sl0 c0 H0) as (c0' & E0 & P0 & F0).
        exists c0'. rewrite chapter_at_store_other by congruence.
        repeat split; auto.
        -- intro Hi. apply P0. now apply Hother.
        -- intro N. apply F0. intro Hi. apply N. now apply Hother.
Qed.

Lemma run_invariant (sched : list nat) (t : nat) (st st' : System) :
  invariant Pend Fill sk st -> run net t sched st = Ok st' ->
  invariant Pend Fill sk st'.
Proof.
  revert t st. induction sched as [|k sched IH]; intros t st I H.
  - injection H as <-. exact I.
  - cbn [run] in H. destruct (step (net t) k st) as [st1|p] eqn:E;
      cbn [bind] in H; [|discriminate].
    apply (IH (S t) st1); [|exact H]. now apply (step_invariant t k st).
Qed.

(** When [main] has left the receive loop, every slot of the skeleton holds
    its own chapter, filled. *)
Lemma run_filled (sched : list nat) (st : System) :
  (Z.of_nat (List.length (slots sk)) <= max_int)%Z ->
  run net 0 sched (launch sk) = Ok st ->
  assembling st = true ->
  shape (sys_arcs st) = shape sk /\
  forall sl c, chapter_at sk sl = Some c ->
    exists c', chapter_at (sys_arcs st) sl = Some c' /\ Fill c c'.
Proof.
  intros B H A.
  pose proof (run_invariant sched 0 _ _ (launch_invariant B) H) as I.
  split; [apply (inv_shape _ _ _ _ I)|].
  intros sl c Hc. destruct (inv_slots _ _ _ _ I sl c Hc) as (c' & E & _ & F).
  exists c'. split; [exact E|]. apply F.
  rewrite (inv_closed _ _ _ _ I A). intros [].
Qed.

End Preservation.

(** *** Any network *)

Lemma Parse_pending (fetch : string -> option Document)
      (c c' ch' : Chapter) (effs : list Effect) :
  pending c c' -> Parse fetch c' = Ok (ch', effs) ->
  (effs = [GoParse] /\ pending c ch') \/
  (effs = [SendDone true] /\ filled_from c ch').
Proof.
  intros (Ht & Hu & Hg & Hp & Hd) H.
  pose proof (Parse_Ok_inv _ _ _ _ H) as L.
  rewrite (Parse_enter fetch c' L) in H. cbn zeta in H.
  cbn [Url set_Url] in H.
  destruct (fetch (with_scheme (Url c'))) as [doc|]; injection H as <- <-.
  - right. split; [reflexivity|]. exists doc, (Retries c').
    unfold filled. cbn [Title Url Tags Paragraphs Retries DatePosted
                        set_Url set_Retries].
    now rewrite with_scheme_idem, Hu, Hg, Hp.
  - left. split; [reflexivity|]. unfold pending.
    cbn [Title Url Tags Paragraphs DatePosted set_Url set_Retries].
    now rewrite with_scheme_idem.
Qed.

Lemma pending_refl (c : Chapter) : pending c c.
Proof. now repeat split. Qed.

(** *** A site that always answers *)

Lemma Parse_steady (net : nat -> string -> option Document)
      (site : string -> Document) :
  (forall t u, net t u = Some (site u)) ->
  forall (t : nat) (c c' ch' : Chapter) (effs : list Effect),
    untouched c c' -> Parse (net t) c' = Ok (ch', effs) ->
    (effs = [GoParse] /\ untouched c ch') \/
    (effs = [SendDone true] /\ filled_by site c ch').
Proof.
  intros Hnet t c c' ch' effs -> H.
  pose proof (Parse_Ok_inv _ _ _ _ H) as L.
  rewrite (Parse_success (net t) c _ L (Hnet t _)) in H.
  injection H as <- <-. right. now split.
Qed.

Lemma shape_fill_all (site : string -> Document) (arcs : list Arc) :
  shape (fill_all site arcs) = shape arcs.
Proof.
  unfold shape, fill_all. rewrite map_map. apply map_ext. intro a.
  cbn [Identifier ArcTitle Chapters set_Chapters]. now rewrite length_map.
Qed.

Lemma chapter_at_fill_all (site : string -> Document) (arcs : list Arc)
      (sl : Slot) :
  chapter_at (fill_all site arcs) sl
  = option_map (fun c => filled c (site (with_scheme (Url c))))
               (chapter_at arcs sl).
Proof.
  unfold chapter_at, fill_all. rewrite nth_error_map.
  destruct (nth_error arcs (fst sl)) as [a|]; [|reflexivity].
  cbn [option_map Chapters set_Chapters]. apply nth_error_map.
Qed.

(** Two arc lists with the same shape and the same chapter in every slot are
    the same. *)
Lemma arcs_ext (a1 a2 : list Arc) :
  shape a1 = shape a2 ->
  (forall sl c, chapter_at a2 sl = Some c -> chapter_at a1 sl = Some c) ->
  a1 = a2.
Proof.
  revert a2. induction a1 as [|x a1 IH]; intros [|y a2] Hs Hc;
    try discriminate; [reflexivity|].
  cbn [shape map] in Hs. injection Hs as Hi Ht Hl Hs.
  f_equal.
  - destruct x as [xi xt xc], y as [yi yt yc]. cbn in Hi, Ht, Hl. subst.
    f_equal. revert yc Hl Hc. induction xc as [|c xc IHc]; intros [|d yc] Hl Hc;
      try discriminate; [reflexivity|].
    f_equal.
    + specialize (Hc (0, 0) d eq_refl). cbn in Hc. congruence.
    + apply IHc; [now injection Hl|].
      intros [[|i] j] c0 H0; cbn in *.
      * exact (Hc (0, S j) c0 H0).
      * exact (Hc (S i, j) c0 H0).
  - apply IH; [exact Hs|]. intros [i j] c H0.
    exact (Hc (S i, j) c H0).
Qed.

(** *** The document *)

Lemma fold_left_eq {A B : Type} (f g : A -> B -> A) (l : list B) (acc : A) :
  (forall a x, f a x = g a x) -> fold_left f l acc = fold_left g l acc.
Proof.
  intro H. revert acc. induction l as [|x l IH]; intro acc; simpl;
    [reflexivity | now rewrite H, IH].
Qed.

Lemma flatten_fold {A : Type} (h : A -> string) (l : list A) (acc : string) :
  fold_left (fun f x => f ++ h x) l acc = acc ++ flatten (map h l).
Proof.
  revert acc. induction l as [|x l IH]; intro acc; cbn [fold_left map flatten fold_right].
  - now rewrite GoStringFacts.app_nil_r.
  - rewrite IH. fold (flatten (map h l)). now rewrite GoStringFacts.app_assoc.
Qed.

Lemma write_chapter_text (opts : Options) (f : string) (ch : Chapter) :
  write_chapter opts f ch = f ++ chapter_text opts ch.
Proof.
  unfold chapter_text, write_chapter. cbn zeta. rewrite !flatten_fold.
  destruct (with_tags opts), (with_date opts), (with_link opts);
    cbn [String.append]; rewrite ?GoStringFacts.app_assoc; reflexivity.
Qed.

Lemma write_arc_text (opts : Options) (f : string) (a : Arc) :
  write_arc opts (newline ++ newline) f a = f ++ arc_text opts a.
Proof.
  unfold write_arc, arc_text. cbn zeta.
  rewrite (fold_left_eq _ (fun f ch => f ++ chapter_text opts ch))
    by (intros; apply write_chapter_text).
  rewrite flatten_fold. now rewrite !GoStringFacts.app_assoc.
Qed.

(** The document is the cover followed by the texts of the arcs in the order
    of the list, each made of the texts of its chapters in order. *)
Lemma document_text (opts : Options) (arcs : list Arc) :
  document opts arcs = cover ++ flatten (map (arc_text opts) arcs).
Proof.
  unfold document. cbn zeta.
  rewrite (fold_left_eq _ (fun f a => f ++ arc_text opts a))
    by (intros; apply write_arc_text).
  rewrite flatten_fold. reflexivity.
Qed.

(** With a site that always answers, the arcs that [main] assembles are the
    skeleton with every chapter filled in place, whatever the schedule. *)
Lemma run_steady (net : nat -> string -> option Document)
      (site : string -> Document) (sk : list Arc) (sched : list nat)
      (st : System) :
  (forall t u, net t u = Some (site u)) ->
  (Z.of_nat (List.length (slots sk)) <= max_int)%Z ->
  run net 0 sched (launch sk) = Ok st ->
  assembling st = true ->
  sys_arcs st = fill_all site sk.
Proof.
  intros Hnet B H A.
  destruct (run_filled net untouched (filled_by site) sk
              (Parse_steady net site Hnet) (fun c => eq_refl) sched st B H A)
    as [Hs Hf].
  apply arcs_ext.
  - now rewrite shape_fill_all.
  - intros sl c' Hc. rewrite chapter_at_fill_all in Hc.
    destruct (chapter_at sk sl) as [c|] eqn:E; [|discriminate].
    cbn [option_map] in Hc. injection Hc as <-.
    destruct (Hf sl c E) as (c'' & E'' & F). now rewrite E'', F.
Qed.

(** With a site that always answers, every order of completion is an
    execution that reaches the end of the receive loop. *)
Lemma run_completes (net : nat -> string -> option Document)
      (site : string -> Document) (sk : list Arc) (sched : list nat) :
  (forall t u, net t u = Some (site u)) ->
  (Z.of_nat (List.length (slots sk)) <= max_int)%Z ->
  (forall sl c, chapter_at sk sl = Some c -> (Retries c <= 3)%Z) ->
  picks (List.length (slots sk)) sched -> sched <> [] ->
  exists st, run net 0 sched (launch sk) = Ok st /\ assembling st = true.
Proof.
  intros Hnet B R.
  assert (G : forall sched t st,
             invariant untouched (filled_by site) sk st ->
             assembling st = false ->
             picks (List.length (running st)) sched -> sched <> [] ->
             exists st', run net t sched st = Ok st' /\ assembling st' = true).
  { clear sched. induction sched as [|k rest IH]; intros t st I A P Hne;
      [congruence|].
    destruct P as [Hk P].
    destruct (nth_error (running st) k) as [sl|] eqn:Ek;
      [|apply nth_error_None in Ek; lia].
    pose proof (nth_error_In _ _ Ek) as Hin.
    destruct (chapter_at sk sl) as [c|] eqn:Esk;
      [|now destruct (inv_valid _ _ _ _ I sl Hin)].
    destruct (inv_slots _ _ _ _ I sl c Esk) as (c' & Hc' & HP & _).
    rewrite (HP Hin) in Hc'.
    destruct (remove_nth_split _ _ _ Ek) as (l1 & l2 & El & Er).
    assert (Len : List.length (running st) = S (List.length (l1 ++ l2)))
      by (rewrite El, !List.length_app; cbn [List.length]; lia).
    set (st1 := {| sys_arcs := store (sys_arcs st) sl
                                 (filled c (site (with_scheme (Url c))));
                   running := (l1 ++ l2)%list;
                   chapters := wrap_int (chapters st - 1);
                   assembling := (wrap_int (chapters st - 1) =? 0)%Z |}).
    assert (S1 : step (net t) k st = Ok st1).
    { unfold step. rewrite Ek, Hc'.
      rewrite (Parse_success (net t) c _ (R sl c Esk) (Hnet t _)).
      cbn [bind perform_all perform assembling chapters sys_arcs running].
      rewrite A, Er. reflexivity. }
    pose proof (step_invariant net untouched (filled_by site) sk
                  (Parse_steady net site Hnet) t k st st1 I S1) as I1.
    cbn [run]. rewrite S1. cbn [bind].
    pose proof (inv_count _ _ _ _ I1) as C1. cbn [st1 chapters running] in C1.
    destruct rest as [|k' rest'].
    - exists st1. split; [reflexivity|]. cbn [picks] in P.
      cbn [st1 assembling]. rewrite C1. apply Z.eqb_eq. lia.
    - apply IH; [exact I1 | | | discriminate].
      + cbn [st1 assembling]. rewrite C1. apply Z.eqb_neq.
        destruct P as [P _]. lia.
      + cbn [st1 running]. now replace (List.length (l1 ++ l2))
          with (List.length (running st) - 1) by lia. }
  intros P Hne. apply G; trivial.
  now apply launch_invariant.
Qed.

End FetchFacts.

Example Format_ex1 :
  Format ("He <em>ran</em>." ++ newline ++ "  <b>Fast</b>.  Very.")
  = "He *ran*. **Fast**. Very.".
Proof. reflexivity. Qed.

(** C7, as stated, fails: a period followed by three spaces is formatted to
    a period followed by two spaces, which a second application collapses
    again. *)
Lemma C7_Format_twice_differs : Format (Format ".   ") <> Format ".   ".
Proof. discriminate. Qed.

(** A newline inside a would-be tag shows the same: the first application
    removes the newline and so forms the tag, the second one replaces it. *)
Example Format_twice_differs_newline :
  Format ("<e" ++ newline ++ "m>") = "<em>" /\ Format "<em>" = "*".
Proof. split; reflexivity. Qed.

(** On one line of text without a period followed by three spaces the
    formatter is idempotent. *)
Lemma Format_idempotent_one_line (s : string) :
  Contains s newline = false -> Contains s ".   " = false ->
  Format (Format s) = Format s.
Proof.
  intros Hnl Hsp. rewrite (FormatFacts.Format_apply_rules (Format s)).
  apply PassFacts.apply_rules_absent.
  now apply FormatFacts.Format_fixpoint.
Qed.

(** C7, amended: applying [Format] twice yields the same result as applying
    it once exactly for the inputs whose text after the tag replacements and
    the removal of the newlines (the nine calls before the collapse of the
    double spaces) contains no emphasis or bold tag and no period followed by
    three spaces. Newlines in the input do no harm by themselves. *)
Theorem C7_Format_idempotent (s : string) :
  Format (Format s) = Format s <->
  (forall r, In r markup_rules ->
             Contains (apply_rules scan_rules s) (fst r) = false) /\
  Contains (apply_rules scan_rules s) ".   " = false.
Proof.
  split.
  - intro E. pose proof (FormatFacts.Format_fixed (Format s) E) as F.
    rewrite FormatFacts.Format_collapse in F. split.
    + intros r Hr.
      destruct (Contains (apply_rules scan_rules s) (fst r)) eqn:C;
        [|reflexivity].
      apply (FormatFacts.collapse_keeps_tag _ r Hr) in C.
      rewrite F in C; [discriminate|].
      unfold format_rules. apply in_or_app. now left.
    + destruct (Contains (apply_rules scan_rules s) ".   ") eqn:C;
        [|reflexivity].
      apply FormatFacts.collapse_keeps_gap in C.
      assert (Hin : In (".  ", ". ") format_rules)
        by (unfold format_rules; apply in_or_app; right; right; now left).
      specialize (F _ Hin). cbn [fst] in F. congruence.
  - intros [Htag Hgap]. apply FormatFacts.Format_plain.
    intros r Hr. unfold format_rules in Hr. apply in_app_or in Hr.
    destruct Hr as [Hr|[<-|[<-|[]]]]; cbn [fst].
    + rewrite FormatFacts.Format_collapse.
      apply (FormatFacts.collapse_no_tag _ r Hr). now apply Htag.
    + apply FormatFacts.Format_no_newline.
    + rewrite FormatFacts.Format_collapse.
      now apply FormatFacts.collapse_clears.
Qed.

(** A paragraph of two lines, with a tag that [Format] leaves alone. *)
Lemma C7_Format_idempotent_witness :
  Format (Format ("He said <em>hi</em>.<br/>" ++ newline ++ "Then left."))
  = Format ("He said <em>hi</em>.<br/>" ++ newline ++ "Then left.").
Proof.
  apply (proj2 (C7_Format_idempotent
                  ("He said <em>hi</em>.<br/>" ++ newline ++ "Then left."))).
  split; [|reflexivity].
  intros r Hr. repeat (destruct Hr as [<-|Hr]; [reflexivity|]). destruct Hr.
Defined.

(** C8: for every paragraph source string, [Format] computes what its
    description says: one scan replaces every emphasis tag by a single
    asterisk and every bold tag by a double asterisk and removes every
    newline, copying all other bytes and tags verbatim, and a period followed
    by two spaces is then collapsed to a period followed by one space. So
    every instance of a tag or of a period with two spaces in the source is
    replaced where it stands, the result has no newline, and a source without
    any of the patterns is returned as it is. *)
Theorem C8_Format_meets_spec (s : string) :
  Format s = Format_spec s /\
  (forall a b old new,
      s = (a ++ old ++ b)%string ->
      In (old, new) (markup_rules ++ collapse_rules) ->
      Format s = (Format a ++ new ++ Format b)%string) /\
  Contains (Format s) newline = false /\
  ((forall r, In r format_rules -> Contains s (fst r) = false) -> Format s = s).
Proof.
  split; [|split; [|split]].
  - rewrite FormatFacts.Format_apply_rules. unfold Format_spec.
    change format_rules with (scan_rules ++ collapse_rules)%list.
    rewrite PassFacts.apply_rules_app.
    rewrite (PassFacts.apply_rules_Rewrite scan_rules) by reflexivity.
    now rewrite (PassFacts.apply_rules_Rewrite collapse_rules) by reflexivity.
  - intros a b old new -> Hin. now apply FormatFacts.Format_at.
  - apply FormatFacts.Format_no_newline.
  - apply FormatFacts.Format_plain.
Qed.

Lemma C8_Format_meets_spec_witness :
  Format "He <em>ran</em>.  Fast." = Format_spec "He <em>ran</em>.  Fast." /\
  Format "He <em>ran</em>.  Fast."
  = (Format "He " ++ "*" ++ Format "ran</em>.  Fast.")%string /\
  Format "He ran." = "He ran.".
Proof.
  split; [|split].
  - apply (C8_Format_meets_spec "He <em>ran</em>.  Fast.").
  - apply (proj1 (proj2 (C8_Format_meets_spec "He <em>ran</em>.  Fast."))
             "He " "ran</em>.  Fast." "<em>" "*"); [reflexivity|].
    left. reflexivity.
  - apply (proj2 (proj2 (proj2 (C8_Format_meets_spec "He ran.")))).
    intros r Hr.
    repeat (destruct Hr as [<-|Hr]; [reflexivity|]). destruct Hr.
Defined.

(** The stages apply in the order of the source: a period followed by two
    spaces that only arises when a newline is removed is collapsed too. *)
Example Format_newline_then_collapse :
  Format ("One. " ++ newline ++ " Two.") = "One. Two.".
Proof. reflexivity. Qed.

(** C3, as stated, fails when no epilogue chapter was discovered before: the
    slice expression [a.Chapters[1+1:]] is then out of range and the run
    panics. *)
Lemma C3_empty_epilogue_panics :
  insert_missing [epilogue []] = Crash SliceBounds.
Proof. reflexivity. Qed.

(** C3, amended: whenever at least one epilogue chapter was discovered before,
    the missing chapter is placed at index 1 of the chapter sequence of the
    epilogue arc (the first arc with identifier E); the chapters from index 1
    onward move one position to the right; index 0 and all the other arcs are
    unchanged. *)
Theorem C3_missing_chapter_at_index_1
  (arcs : list Arc) (i : nat) (a : Arc) (c0 : Chapter) (rest : list Chapter) :
  find_arc "E" arcs = Some i ->
  nth_error arcs i = Some a ->
  Chapters a = c0 :: rest ->
  exists arcs' a',
    insert_missing arcs = Ok arcs' /\
    nth_error arcs' i = Some a' /\
    Identifier a' = Identifier a /\ ArcTitle a' = ArcTitle a /\
    Chapters a' = c0 :: missing_chapter :: rest /\
    nth_error (Chapters a') 0 = nth_error (Chapters a) 0 /\
    nth_error (Chapters a') 1 = Some missing_chapter /\
    (forall k, 1 <= k ->
               nth_error (Chapters a') (S k) = nth_error (Chapters a) k) /\
    (forall j, j <> i -> nth_error arcs' j = nth_error arcs j) /\
    List.length arcs' = List.length arcs.
Proof.
  intros Hfind Hnth Hchs.
  exists (update arcs i (fun x => set_Chapters x (c0 :: missing_chapter :: rest))),
         (set_Chapters a (c0 :: missing_chapter :: rest)).
  split; [|repeat split].
  - unfold insert_missing.
    rewrite ClassifierFacts.WhichArc_long by (simpl; lia).
    change (arc_key (Title missing_chapter)) with "E". rewrite Hfind.
    cbn [bind chapters_of]. rewrite Hnth, Hchs.
    pose proof (ClassifierFacts.splice_at_1 c0 missing_chapter rest) as S.
    cbn zeta in S.
    destruct (slice_from ((c0 :: rest) ++ [missing_chapter]) (1 + 1))
      as [dst|]; [|discriminate]. cbn [bind] in *.
    destruct (slice_from ((c0 :: rest) ++ [missing_chapter]) 1)
      as [src|]; [|discriminate]. cbn [bind] in *.
    rewrite S. reflexivity.
  - now rewrite ClassifierFacts.nth_error_update_eq, Hnth.
  - now rewrite Hchs.
  - intros [|k] Hk; [lia|]. now rewrite Hchs.
  - intros j Hj. apply ClassifierFacts.nth_error_update_neq. congruence.
  - apply ClassifierFacts.length_update.
Qed.

Lemma C3_missing_chapter_at_index_1_witness :
  exists arcs' a',
    insert_missing
      [ arc1 [placeholder "1.1" "u11"];
        epilogue [placeholder "E.1" "e1"; placeholder "E.3" "e3"] ] = Ok arcs' /\
    nth_error arcs' 1 = Some a' /\
    Chapters a' = [placeholder "E.1" "e1"; missing_chapter; placeholder "E.3" "e3"].
Proof.
  destruct (C3_missing_chapter_at_index_1
              [ arc1 [placeholder "1.1" "u11"];
                epilogue [placeholder "E.1" "e1"; placeholder "E.3" "e3"] ]
              1 (epilogue [placeholder "E.1" "e1"; placeholder "E.3" "e3"])
              (placeholder "E.1" "e1") [placeholder "E.3" "e3"]
              eq_refl eq_refl eq_refl)
    as (arcs' & a' & H1 & H2 & _ & _ & H3 & _).
  exists arcs', a'. repeat split; assumption.
Defined.

(** C4 at a title of a single byte: the link text E reaches [WhichArc] (the
    guard only rejects the empty title) and the prefix expression panics; the
    chapter is neither appended to the epilogue arc nor dropped with an
    error. *)
Theorem C4_one_byte_title_panics :
  add_chapter [epilogue []]
              (link_chapter {| text := "E"; href := "https://parahumans.wordpress.com/e" |})
  = Crash SliceBounds.
Proof. reflexivity. Qed.

(** C10, as stated, fails without arcs: the loop of [WhichArc] has nothing to
    range over, the prefix expression is never evaluated and the result is
    the no-match error. *)
Lemma C10_no_arcs_no_panic :
  WhichArc (placeholder "x" "u") []
  = Ok (Fresh, Some "chapter 'x' did not match any Arcs").
Proof. reflexivity. Qed.

(** C10, amended: for a chapter whose title has length 0 or 1 and a non-empty
    arc list, the prefix expression of [WhichArc] is a runtime panic, not the
    no-match error; the main flow only guards against the empty title, so a
    title of length 1 panics there too and stops the whole run. *)
Theorem C10_short_title_panics (ch : Chapter) (arcs : list Arc) :
  String.length (Title ch) < 2 -> arcs <> [] ->
  WhichArc ch arcs = Crash SliceBounds /\
  (Title ch <> "" -> add_chapter arcs ch = Crash SliceBounds).
Proof.
  intros H Hne. split; [now apply ClassifierFacts.WhichArc_short|].
  intro Ht. apply ClassifierFacts.add_chapter_short; [|exact Hne].
  destruct (Title ch) as [|c [|d t]]; simpl in *; [congruence | reflexivity | lia].
Qed.

Lemma C10_short_title_panics_witness :
  WhichArc (placeholder "E" "u") [epilogue []] = Crash SliceBounds /\
  add_chapter [epilogue []] (placeholder "E" "u") = Crash SliceBounds.
Proof.
  destruct (C10_short_title_panics (placeholder "E" "u") [epilogue []])
    as [H1 H2]; [simpl; lia | discriminate |].
  split; [exact H1 | apply H2; discriminate].
Defined.

(** C1: the task aborts the process exactly when the retry counter of its
    chapter exceeds 3 on entry; on a failed fetch with a counter of at most 3
    it increments the counter by one, starts a new attempt for the same
    chapter and returns without sending on the channel. *)
Theorem C1_retry_bound (fetch : string -> option Document) (ch : Chapter) :
  ((exists p, Parse fetch ch = Crash p) <-> (Retries ch > 3)%Z) /\
  ((Retries ch <= 3)%Z -> int_range (Retries ch) ->
   fetch (with_scheme (Url ch)) = None ->
   Parse fetch ch
   = Ok (set_Retries (set_Url ch (with_scheme (Url ch))) (Retries ch + 1),
         [GoParse])).
Proof.
  split.
  - split.
    + intros [p H]. destruct (Z_le_gt_dec (Retries ch) 3) as [L|G]; [|exact G].
      rewrite (ParseFacts.Parse_enter fetch ch L) in H. cbn zeta in H.
      destruct (fetch _); discriminate.
    + intro G. exists (Explicit (timed_out ch)).
      apply ParseFacts.Parse_abort. lia.
  - intros L R F. rewrite (ParseFacts.Parse_failure fetch ch L F).
    rewrite ParseFacts.wrap_int_range; [reflexivity|].
    unfold int_range, min_int, max_int in *. lia.
Qed.

Lemma C1_retry_bound_witness :
  Parse (fun _ => None) sample_chapter
  = Ok (set_Retries
          (set_Url sample_chapter "https://parahumans.wordpress.com/2011/06/11/1-1/")
          1, [GoParse]).
Proof.
  apply (proj2 (C1_retry_bound (fun _ => None) sample_chapter)).
  - simpl. lia.
  - unfold int_range, min_int, max_int. simpl. lia.
  - reflexivity.
Defined.

(** A chapter whose page never loads: four attempts fail and are
    rescheduled, the fifth call aborts on entry with the counter at 4. *)
Example five_attempts :
  let down := fun _ : string => @None Document in
  let retry ch := match Parse down ch with Ok (ch', _) => ch' | Crash _ => ch end in
  let ch4 := retry (retry (retry (retry sample_chapter))) in
  Retries ch4 = 4%Z /\ Parse down ch4 = Crash (Explicit (timed_out ch4)).
Proof. split; reflexivity. Qed.

(** C5: a content element with at least one anchor below it contributes no
    paragraph; the paragraphs of the chapter after a successful call are those
    it had, followed by the contributions of the other elements. *)
Theorem C5_link_paragraphs_skipped
  (fetch : string -> option Document) (ch ch' : Chapter) (effs : list Effect)
  (doc : Document) (before after : list Selection) (s : Selection) :
  Find (node s) "a" <> [] ->
  fetch (with_scheme (Url ch)) = Some doc ->
  entry_content doc = (before ++ s :: after)%list ->
  Parse fetch ch = Ok (ch', effs) ->
  paragraph_of s = None /\
  Paragraphs ch'
  = (Paragraphs ch ++ paragraphs before ++ paragraphs after)%list.
Proof.
  intros Hlink F Hc HP.
  assert (Hs : paragraph_of s = None).
  { unfold paragraph_of. destruct (Find (node s) "a"); [congruence | reflexivity]. }
  split; [exact Hs|].
  pose proof (ParseFacts.Parse_Ok_inv _ _ _ _ HP) as L.
  rewrite (ParseFacts.Parse_success fetch ch doc L F) in HP.
  injection HP as <- _. cbn [Paragraphs filled]. rewrite Hc.
  rewrite ParseFacts.paragraphs_app. cbn [paragraphs flat_map].
  now rewrite Hs.
Qed.

Lemma C5_link_paragraphs_skipped_witness :
  paragraph_of nav_par = None /\
  Paragraphs (filled sample_chapter sample_page)
  = ([] ++ paragraphs [] ++ paragraphs [story_par; quote_par; divider_par; nav_par])%list.
Proof.
  apply (C5_link_paragraphs_skipped
           (fun _ => Some sample_page) sample_chapter
           (filled sample_chapter sample_page) [SendDone true]
           sample_page [] [story_par; quote_par; divider_par; nav_par] nav_par).
  - discriminate.
  - reflexivity.
  - reflexivity.
  - reflexivity.
Defined.

Example sample_page_paragraphs :
  Paragraphs (filled sample_chapter sample_page)
  = ["He *ran*."; "    A note."; "----------"].
Proof. reflexivity. Qed.

(** C6: a retained content element is classified in this order: with an
    attribute padding-left equal to 30px it yields its formatted content
    behind an indent of four spaces; otherwise, with an attribute text-align
    equal to center, it yields exactly the separator, whatever its content;
    otherwise its inner markup is formatted as a normal paragraph. *)
Theorem C6_paragraph_classes (s : Selection) :
  Find (node s) "a" = [] ->
  (Attr (node s) "padding-left" = Some "30px" ->
   paragraph_of s = Some ("    " ++ Format (Html s))) /\
  (Attr (node s) "padding-left" <> Some "30px" ->
   Attr (node s) "text-align" = Some "center" ->
   paragraph_of s = Some "----------") /\
  (Attr (node s) "padding-left" <> Some "30px" ->
   Attr (node s) "text-align" <> Some "center" ->
   paragraph_of s = Some (Format (Html s))).
Proof.
  intro Hno. unfold paragraph_of, attr_is. rewrite Hno. cbn [List.length Nat.ltb Nat.leb].
  repeat split.
  - intros ->. rewrite String.eqb_refl.
    now rewrite FormatFacts.Format_indent.
  - intros Hp ->.
    destruct (Attr (node s) "padding-left") as [v|]; [|reflexivity].
    destruct (String.eqb_spec v "30px") as [->|_]; [congruence | reflexivity].
  - intros Hp Ht.
    destruct (Attr (node s) "padding-left") as [v|].
    + destruct (String.eqb_spec v "30px") as [->|_]; [congruence|].
      destruct (Attr (node s) "text-align") as [w|]; [|reflexivity].
      destruct (String.eqb_spec w "center") as [->|_]; [congruence | reflexivity].
    + destruct (Attr (node s) "text-align") as [w|]; [|reflexivity].
      destruct (String.eqb_spec w "center") as [->|_]; [congruence | reflexivity].
Qed.

Lemma C6_paragraph_classes_witness :
  paragraph_of quote_par = Some ("    " ++ Format "A note.") /\
  paragraph_of divider_par = Some "----------" /\
  paragraph_of story_par = Some (Format "He <em>ran</em>.").
Proof.
  split; [|split].
  - apply (proj1 (C6_paragraph_classes quote_par eq_refl)). reflexivity.
  - apply (proj1 (proj2 (C6_paragraph_classes divider_par eq_refl)));
      [discriminate | reflexivity].
  - apply (proj2 (proj2 (C6_paragraph_classes story_par eq_refl)));
      discriminate.
Defined.

(** C2: whatever the schedule of the chapter tasks (which one runs next, in
    which order they complete, how often each one retries), once [main] has
    left its receive loop the arcs are those of the skeleton in the same
    order, each with the same number of chapters, and every position of every
    arc holds the chapter that the skeleton has at that position, filled from
    a page; the document is the cover followed by the texts of these arcs
    and chapters in that order. With a site that always answers the arcs,
    and so the document, are the same for every schedule. *)
Theorem C2_order_from_skeleton
  (net : nat -> string -> option Document) (opts : Options)
  (sk : list Arc) (sched : list nat) (st : System) :
  (Z.of_nat (List.length (slots sk)) <= max_int)%Z ->
  run net 0 sched (launch sk) = Ok st ->
  assembling st = true ->
  shape (sys_arcs st) = shape sk /\
  (forall i j c, chapter_at sk (i, j) = Some c ->
     exists c', chapter_at (sys_arcs st) (i, j) = Some c' /\ filled_from c c') /\
  document opts (sys_arcs st)
  = cover ++ flatten (map (arc_text opts) (sys_arcs st)) /\
  (forall site, (forall t u, net t u = Some (site u)) ->
     sys_arcs st = fill_all site sk /\
     document opts (sys_arcs st) = document opts (fill_all site sk)).
Proof.
  intros B H A.
  destruct (FetchFacts.run_filled net pending filled_from sk
              (fun t => FetchFacts.Parse_pending (net t))
              FetchFacts.pending_refl sched st B H A) as [Hs Hf].
  split; [exact Hs|]. split; [intros i j c; apply Hf|].
  split; [apply FetchFacts.document_text|].
  intros site Hnet.
  assert (E : sys_arcs st = fill_all site sk)
    by (now apply (FetchFacts.run_steady net site sk sched st)).
  split; [exact E | now rewrite E].
Qed.

(** The three tasks of the sample skeleton complete in the reverse of the
    order of the skeleton, the first attempt failing. *)
Lemma C2_order_from_skeleton_witness :
  exists st,
    run flaky_net 0 [2; 2; 1; 0] (launch sample_skeleton) = Ok st /\
    shape (sys_arcs st) = shape sample_skeleton /\
    (forall i j c, chapter_at sample_skeleton (i, j) = Some c ->
       exists c', chapter_at (sys_arcs st) (i, j) = Some c' /\ filled_from c c').
Proof.
  eexists. split; [vm_compute; reflexivity|].
  match goal with
  | |- shape (sys_arcs ?s) = _ /\ _ =>
      destruct (C2_order_from_skeleton flaky_net plain sample_skeleton
                  [2; 2; 1; 0] s) as (H1 & H2 & _)
  end.
  - vm_compute. discriminate.
  - vm_compute. reflexivity.
  - reflexivity.
  - split; [exact H1 | exact H2].
Defined.

(** Two schedules with opposite completion orders, one document. *)
Example same_document :
  match run steady_net 0 [0; 0; 0] (launch sample_skeleton),
        run steady_net 0 [2; 1; 0] (launch sample_skeleton) with
  | Ok st1, Ok st2 =>
      assembling st1 = true /\ assembling st2 = true /\
      document plain (sys_arcs st1) = document plain (sys_arcs st2)
  | _, _ => False
  end.
Proof. vm_compute. repeat split. Qed.

(** C9: when the file Worm.md exists, the write phase panics on opening it,
    before anything is written: the file system is left as it was, with the
    old contents of the file. *)
Theorem C9_existing_output_kept
  (opts : Options) (arcs : list Arc) (fs : FileSystem) (old : string) :
  lookup fs "Worm.md" = Some old ->
  save opts arcs fs = (fs, Crash (Explicit "open Worm.md: file exists")) /\
  lookup (fst (save opts arcs fs)) "Worm.md" = Some old.
Proof.
  intro H. unfold save, OpenFile. rewrite H.
  change (has (Z.lor (Z.lor O_RDWR O_CREATE) O_EXCL) O_CREATE) with true.
  change (has (Z.lor (Z.lor O_RDWR O_CREATE) O_EXCL) O_EXCL) with true.
  cbn [andb fst]. split; [reflexivity | exact H].
Qed.

Lemma C9_existing_output_kept_witness :
  save plain sample_skeleton [("Worm.md", "an older book")]
  = ([("Worm.md", "an older book")], Crash (Explicit "open Worm.md: file exists")).
Proof.
  apply (C9_existing_output_kept plain sample_skeleton
           [("Worm.md", "an older book")] "an older book").
  reflexivity.
Defined.

(** Without the file the phase creates it and writes the document. *)
Lemma save_fresh (opts : Options) (arcs : list Arc) (fs : FileSystem) :
  lookup fs "Worm.md" = None ->
  snd (save opts arcs fs) = Ok tt /\
  lookup (fst (save opts arcs fs)) "Worm.md" = Some (document opts arcs).
Proof.
  intro H. unfold save, OpenFile. rewrite H.
  change (has (Z.lor (Z.lor O_RDWR O_CREATE) O_EXCL) O_CREATE) with true.
  cbn [fst snd]. split; [reflexivity|].
  assert (W : forall fs0 n d, lookup (write fs0 n d) n = Some d).
  { intros fs0 n d. induction fs0 as [|[m e] fs0 IH]; cbn [write lookup].
    - now rewrite String.eqb_refl.
    - destruct (String.eqb m n) eqn:E; cbn [lookup]; rewrite E; auto. }
  apply W.
Qed.

(** * Further properties of the code *)

(** ** The table of contents *)

Module ContentsFacts.

Import GoStringFacts ClassifierFacts.

Lemma Split_cons (s : string) (sep : ascii) :
  exists piece pieces, Split s sep = piece :: pieces.
Proof.
  induction s as [|c s IH]; cbn [Split]; [now exists "", []|].
  destruct (Ascii.eqb c sep); [now exists "", (Split s sep)|].
  destruct IH as (p & ps & ->). now exists (String c p), ps.
Qed.

Lemma Split_app (a b : string) (sep : ascii) :
  Split (a ++ String sep b) sep = (Split a sep ++ Split b sep)%list.
Proof.
  induction a as [|c a IH]; cbn [String.append Split].
  - now rewrite Ascii.eqb_refl.
  - destruct (Ascii.eqb c sep); [now rewrite IH|].
    rewrite IH. destruct (Split_cons a sep) as (p & ps & ->). reflexivity.
Qed.

Lemma parse_line_app (arcs : list Arc) (line : string) :
  parse_line arcs line = (arcs ++ parse_line [] line)%list.
Proof.
  unfold parse_line. cbn zeta.
  destruct (HasPrefix (TrimSpace line) "Arc"); [reflexivity|].
  destruct (HasPrefix (TrimSpace line) "Epilogue"); [reflexivity|].
  now rewrite List.app_nil_r.
Qed.

Lemma parse_lines_app (lines : list string) (arcs : list Arc) :
  fold_left parse_line lines arcs
  = (arcs ++ fold_left parse_line lines [])%list.
Proof.
  revert arcs. induction lines as [|l lines IH]; intro arcs; cbn [fold_left].
  - now rewrite List.app_nil_r.
  - rewrite IH, (IH (parse_line [] l)), (parse_line_app arcs l).
    now rewrite List.app_assoc.
Qed.

Lemma all_digits_leading (s : string) : all_digits (leading_digits s) = true.
Proof.
  induction s as [|c s IH]; [reflexivity|]. cbn [leading_digits].
  destruct (is_digit c) eqn:E; [|reflexivity].
  cbn [all_digits]. now rewrite E, IH.
Qed.

Lemma all_digits_FindDigits (s : string) : all_digits (FindDigits s) = true.
Proof.
  induction s as [|c s IH]; [reflexivity|]. cbn [FindDigits].
  destruct (is_digit c) eqn:E; [|exact IH].
  apply (all_digits_leading (String c s)).
Qed.

Lemma In_parse_lines (lines : list string) (a : Arc) :
  In a (fold_left parse_line lines []) ->
  exists line, In line lines /\ In a (parse_line [] line).
Proof.
  induction lines as [|l lines IH]; cbn [fold_left]; [intros []|].
  rewrite parse_lines_app, in_app_iff. intros [H|H].
  - exists l. split; [now left | exact H].
  - destruct (IH H) as (line & H1 & H2). exists line. split; [now right | exact H2].
Qed.

Lemma parse_line_arc (line : string) (a : Arc) :
  In a (parse_line [] line) ->
  Chapters a = [] /\ ArcTitle a = TrimSpace line /\
  ((HasPrefix (ArcTitle a) "Arc" = true /\
    Identifier a = FindDigits (ArcTitle a) /\
    all_digits (Identifier a) = true) \/
   (HasPrefix (ArcTitle a) "Arc" = false /\
    HasPrefix (ArcTitle a) "Epilogue" = true /\ Identifier a = "E")).
Proof.
  unfold parse_line. cbn zeta.
  destruct (HasPrefix (TrimSpace line) "Arc") eqn:EA.
  - intros [<-|[]]. cbn [Chapters ArcTitle Identifier].
    repeat split. left. repeat split; [exact EA|].
    apply all_digits_FindDigits.
  - destruct (HasPrefix (TrimSpace line) "Epilogue") eqn:EE; [|intros []].
    intros [<-|[]]. cbn [Chapters ArcTitle Identifier].
    repeat split. right. repeat split; assumption.
Qed.

Lemma ParseArcs_arc (s : string) (a : Arc) :
  In a (ParseArcs s) ->
  exists line, In line (Split s "010"%char) /\ In a (parse_line [] line).
Proof. apply In_parse_lines. Qed.

Lemma ParseArcs_no_chapters (s : string) (a : Arc) :
  In a (ParseArcs s) -> Chapters a = [].
Proof.
  intro H. destruct (ParseArcs_arc s a H) as (line & _ & Hl).
  now destruct (parse_line_arc line a Hl).
Qed.

End ContentsFacts.

(** ** The classifier, continued *)

Module ClassifyFacts.

Import GoStringFacts ClassifierFacts.

Lemma length_Replace_le (s old new : string) :
  String.length new <= String.length old ->
  String.length (Replace s old new) <= String.length s.
Proof.
  intro H. destruct old as [|a o]; [reflexivity|].
  apply (Replace_ind (String a o) new
           (fun s t => String.length t <= String.length s));
    try discriminate.
  - reflexivity.
  - intros r IH. rewrite !length_app. lia.
  - intros c s0 _ IH. cbn [String.length]. lia.
Qed.

Lemma length_take (n : nat) (s : string) : String.length (take n s) <= n.
Proof.
  revert s. induction n as [|n IH]; intros [|c s]; cbn [take String.length];
    try lia. specialize (IH s). lia.
Qed.

Lemma arc_key_length (title : string) : String.length (arc_key title) <= 2.
Proof.
  unfold arc_key.
  pose proof (length_Replace_le (take 2 title) "." "" (Nat.le_0_l _)).
  pose proof (length_take 2 title). lia.
Qed.

Lemma arc_key_no_period (title : string) : Contains (arc_key title) "." = false.
Proof. apply Replace_delete_byte. Qed.

Lemma find_arc_ids (key : string) (a1 a2 : list Arc) :
  map Identifier a1 = map Identifier a2 -> find_arc key a1 = find_arc key a2.
Proof.
  revert a2. induction a1 as [|x a1 IH]; intros [|y a2] H; try discriminate;
    [reflexivity|].
  cbn [map] in H. injection H as Hx H. cbn [find_arc].
  now rewrite Hx, (IH a2 H).
Qed.

Lemma find_arc_bound (key : string) (arcs : list Arc) (i : nat) :
  find_arc key arcs = Some i -> i < List.length arcs.
Proof.
  intro H. destruct (find_arc_Some _ _ _ H) as (a & Ha & _).
  apply nth_error_Some. congruence.
Qed.

Lemma set_Chapters_same (a : Arc) : set_Chapters a (Chapters a) = a.
Proof. now destruct a. Qed.

Lemma ids_assign_from (all : list Arc) (k : nat) (arcs : list Arc)
      (chs : list Chapter) :
  map Identifier (assign_from all k arcs chs) = map Identifier arcs /\
  map ArcTitle (assign_from all k arcs chs) = map ArcTitle arcs.
Proof.
  revert k. induction arcs as [|a arcs IH]; intro k; [now split|].
  cbn [assign_from map]. destruct (IH (S k)) as [-> ->]. now split.
Qed.

Lemma assign_from_nil (all : list Arc) (k : nat) (arcs : list Arc) :
  assign_from all k arcs [] = arcs.
Proof.
  revert k. induction arcs as [|a arcs IH]; intro k; [reflexivity|].
  cbn [assign_from filter]. now rewrite List.app_nil_r, set_Chapters_same, IH.
Qed.

Lemma assign_from_snoc (all : list Arc) (b : nat) (arcs : list Arc)
      (done : list Chapter) (ch : Chapter) :
  assign_from all b arcs (done ++ [ch])
  = match find_arc (arc_key (Title ch)) all with
    | Some i =>
        if (b <=? i)%nat
        then update (assign_from all b arcs done) (i - b)
               (fun a => set_Chapters a (Chapters a ++ [ch])%list)
        else assign_from all b arcs done
    | None => assign_from all b arcs done
    end.
Proof.
  revert b. induction arcs as [|a arcs IH]; intro b.
  - cbn [assign_from]. destruct (find_arc _ all) as [i|]; [|reflexivity].
    now destruct (b <=? i)%nat.
  - cbn [assign_from]. rewrite filter_app, IH. cbn [filter].
    destruct (find_arc (arc_key (Title ch)) all) as [i|].
    + destruct (Nat.compare_spec i b) as [->|L|G].
      * rewrite Nat.eqb_refl, Nat.leb_refl, Nat.sub_diag.
        rewrite (proj2 (Nat.leb_gt (S b) b)) by lia.
        cbn [update Chapters set_Chapters Identifier ArcTitle].
        now rewrite List.app_assoc.
      * rewrite (proj2 (Nat.eqb_neq i b)) by lia.
        rewrite (proj2 (Nat.leb_gt b i)) by lia.
        rewrite (proj2 (Nat.leb_gt (S b) i)) by lia.
        now rewrite List.app_nil_r.
      * rewrite (proj2 (Nat.eqb_neq i b)) by lia.
        rewrite (proj2 (Nat.leb_le b i)) by lia.
        rewrite (proj2 (Nat.leb_le (S b) i)) by lia.
        replace (i - b) with (S (i - S b)) by lia.
        cbn [update]. now rewrite List.app_nil_r.
    + now rewrite List.app_nil_r.
Qed.

Lemma add_chapter_classify (arcs : list Arc) (done : list Chapter)
      (ch : Chapter) :
  2 <= String.length (Title ch) ->
  add_chapter (classify arcs done) ch = Ok (classify arcs (done ++ [ch])).
Proof.
  intro H. rewrite (add_chapter_long _ _ H). unfold classify.
  rewrite (find_arc_ids _ (assign_from arcs 0 arcs done) arcs)
    by apply ids_assign_from.
  rewrite assign_from_snoc.
  destruct (find_arc (arc_key (Title ch)) arcs) as [i|]; [|reflexivity].
  cbn [Nat.leb]. now rewrite Nat.sub_0_r.
Qed.

Lemma add_chapter_untitled (arcs : list Arc) (ch : Chapter) :
  Title ch = "" -> add_chapter arcs ch = Ok arcs.
Proof. intro H. unfold add_chapter. now rewrite H. Qed.

Lemma add_links_classify (arcs : list Arc) (done : list Chapter)
      (links : list Link) :
  (forall l, In l links -> String.length (Title (link_chapter l)) <> 1) ->
  add_links (classify arcs done) links
  = Ok (classify arcs (done ++ titled links)).
Proof.
  revert done. induction links as [|l links IH]; intros done H.
  - unfold titled. cbn [map filter add_links]. now rewrite List.app_nil_r.
  - cbn [add_links]. unfold titled. cbn [map filter].
    fold (titled links).
    destruct (String.eqb_spec (Title (link_chapter l)) "") as [E|E];
      cbn [negb].
    + rewrite add_chapter_untitled by exact E. cbn [bind].
      apply IH. intros l0 H0. apply H. now right.
    + rewrite add_chapter_classify.
      * cbn [bind]. rewrite IH by (intros l0 H0; apply H; now right).
        now rewrite <- List.app_assoc.
      * specialize (H l (or_introl eq_refl)).
        destruct (Title (link_chapter l)) as [|c [|d t]]; cbn in *;
          try congruence; lia.
Qed.

Lemma In_assign_from (all : list Arc) (k : nat) (arcs : list Arc)
      (chs : list Chapter) (a' : Arc) :
  In a' (assign_from all k arcs chs) ->
  exists j a, nth_error arcs j = Some a /\ Identifier a' = Identifier a /\
    forall ch, In ch (Chapters a') ->
      In ch (Chapters a) \/
      (In ch chs /\ find_arc (arc_key (Title ch)) all = Some (k + j)).
Proof.
  revert k. induction arcs as [|a arcs IH]; intros k; [intros []|].
  cbn [assign_from]. intros [<-|H].
  - exists 0, a. repeat split; auto.
    cbn [Chapters set_Chapters]. intros ch Hch. apply in_app_or in Hch.
    destruct Hch as [Hch|Hch]; [now left|]. right.
    apply filter_In in Hch. destruct Hch as [H1 H2]. split; [exact H1|].
    destruct (find_arc (arc_key (Title ch)) all) as [i|]; [|discriminate].
    apply Nat.eqb_eq in H2. subst i. now rewrite Nat.add_0_r.
  - destruct (IH (S k) H) as (j & a0 & Hj & Hid & Hch).
    exists (S j), a0. repeat split; auto.
    intros ch Hc. destruct (Hch ch Hc) as [L|[R1 R2]]; [now left|].
    right. split; [exact R1|]. now rewrite Nat.add_succ_r.
Qed.

Lemma well_keyed_classify (arcs : list Arc) (chs : list Chapter) :
  well_keyed arcs -> well_keyed (classify arcs chs).
Proof.
  intros W a' ch Ha Hch. unfold classify in Ha.
  destruct (In_assign_from _ _ _ _ _ Ha) as (j & a & Hj & Hid & Hc).
  rewrite Hid. destruct (Hc ch Hch) as [L|[_ R]].
  - apply W; [|exact L]. now apply (nth_error_In arcs j).
  - cbn [Nat.add] in R. destruct (find_arc_Some _ _ _ R) as (a0 & H0 & H1 & _).
    congruence.
Qed.

Lemma In_update {A : Type} (l : list A) (i : nat) (f : A -> A) (x : A) :
  In x (update l i f) ->
  In x l \/ exists y, nth_error l i = Some y /\ x = f y.
Proof.
  revert i. induction l as [|y l IH]; intros [|i]; cbn [update In nth_error];
    try tauto.
  - intros [<-|H]; [right; now exists y | left; now right].
  - intros [<-|H]; [left; now left|].
    destruct (IH i H) as [L|R]; [left; now right | now right].
Qed.

Lemma length_assign_from (all : list Arc) (k : nat) (arcs : list Arc)
      (chs : list Chapter) :
  List.length (assign_from all k arcs chs) = List.length arcs.
Proof.
  revert k. induction arcs as [|a arcs IH]; intro k; cbn [assign_from List.length];
    [reflexivity | now rewrite IH].
Qed.

Lemma nth_error_assign_from (all : list Arc) (k : nat) (arcs : list Arc)
      (chs : list Chapter) (j : nat) (a : Arc) :
  nth_error arcs j = Some a ->
  nth_error (assign_from all k arcs chs) j
  = Some (set_Chapters a
            (Chapters a
             ++ filter (fun ch =>
                          match find_arc (arc_key (Title ch)) all with
                          | Some i => Nat.eqb i (k + j)
                          | None => false
                          end) chs)%list).
Proof.
  revert k j. induction arcs as [|x arcs IH]; intros k [|j] H;
    cbn [nth_error] in H; try discriminate.
  - injection H as ->. cbn [assign_from nth_error]. now rewrite Nat.add_0_r.
  - cbn [assign_from nth_error]. rewrite (IH (S k) j H).
    now rewrite Nat.add_succ_r.
Qed.

(** What the splice of the missing chapter returns when it can be made. *)
Lemma insert_missing_Ok (arcs : list Arc) (i : nat) (a : Arc) (c0 : Chapter)
      (rest : list Chapter) :
  find_arc "E" arcs = Some i -> nth_error arcs i = Some a ->
  Chapters a = c0 :: rest ->
  insert_missing arcs
  = Ok (update arcs i
          (fun x => set_Chapters x (c0 :: missing_chapter :: rest))).
Proof.
  intros Hfind Hnth Hchs. unfold insert_missing.
  rewrite WhichArc_long by (simpl; lia).
  change (arc_key (Title missing_chapter)) with "E". rewrite Hfind.
  cbn [bind chapters_of]. rewrite Hnth, Hchs.
  pose proof (splice_at_1 c0 missing_chapter rest) as S. cbn zeta in S.
  destruct (slice_from ((c0 :: rest) ++ [missing_chapter]) (1 + 1))
    as [dst|]; [|discriminate]. cbn [bind] in *.
  destruct (slice_from ((c0 :: rest) ++ [missing_chapter]) 1)
    as [src|]; [|discriminate]. cbn [bind] in *.
  now rewrite S.
Qed.

(** And when it cannot: no arc E, or no chapter in it. *)
Lemma insert_missing_Crash (arcs : list Arc) :
  chapters_of arcs
    (match find_arc "E" arcs with Some i => InList i | None => Fresh end) = [] ->
  insert_missing arcs = Crash SliceBounds.
Proof.
  intro H. unfold insert_missing.
  rewrite WhichArc_long by (simpl; lia).
  change (arc_key (Title missing_chapter)) with "E".
  destruct (find_arc "E" arcs) as [i|]; cbn [bind]; now rewrite H.
Qed.

Lemma insert_missing_cases (arcs : list Arc) :
  (exists i a c0 rest,
      find_arc "E" arcs = Some i /\ nth_error arcs i = Some a /\
      Chapters a = c0 :: rest /\
      insert_missing arcs
      = Ok (update arcs i
              (fun x => set_Chapters x (c0 :: missing_chapter :: rest)))) \/
  insert_missing arcs = Crash SliceBounds.
Proof.
  destruct (find_arc "E" arcs) as [i|] eqn:E.
  - destruct (find_arc_Some _ _ _ E) as (a & Ha & _).
    destruct (Chapters a) as [|c0 rest] eqn:Ec.
    + right. apply insert_missing_Crash. rewrite E. cbn [chapters_of].
      now rewrite Ha.
    + left. exists i, a, c0, rest. repeat split; trivial.
      now apply (insert_missing_Ok arcs i a c0 rest).
  - right. apply insert_missing_Crash. now rewrite E.
Qed.

(** A skeleton is the classified links with the missing chapter spliced
    in. *)
Lemma skeleton_Ok (arcs : list Arc) (links : list Link) (sk : list Arc) :
  skeleton arcs links = Ok sk ->
  exists i a c0 rest,
    find_arc "E" (classify arcs (titled links)) = Some i /\
    nth_error (classify arcs (titled links)) i = Some a /\
    Chapters a = c0 :: rest /\
    sk = update (classify arcs (titled links)) i
           (fun x => set_Chapters x (c0 :: missing_chapter :: rest)).
Proof.
  unfold skeleton. intro H.
  assert (A : add_links arcs links = Ok (classify arcs (titled links))).
  { destruct arcs as [|a0 arcs].
    - rewrite add_links_nil in H. discriminate.
    - destruct (existsb (fun l => Nat.eqb (String.length (Title (link_chapter l))) 1)
                        links) eqn:E.
      + apply existsb_exists in E. destruct E as (l & Hl & El).
        apply Nat.eqb_eq in El.
        rewrite (add_links_short (a0 :: arcs) links l) in H;
          try discriminate; assumption.
      + rewrite <- (assign_from_nil (a0 :: arcs) 0 (a0 :: arcs)) at 1.
        apply (add_links_classify (a0 :: arcs) [] links).
        intros l Hl El.
        assert (existsb (fun l => Nat.eqb (String.length (Title (link_chapter l))) 1)
                        links = true)
          by (apply existsb_exists; exists l; split;
              [exact Hl | now apply Nat.eqb_eq]).
        congruence. }
  rewrite A in H. cbn [bind] in H.
  destruct (insert_missing_cases (classify arcs (titled links)))
    as [(i & a & c0 & rest & H1 & H2 & H3 & H4)|C]; [|congruence].
  exists i, a, c0, rest. repeat split; trivial. congruence.
Qed.

End ClassifyFacts.

(** ** The fetch phase, continued *)

Module RunFacts.

Import ParseFacts FetchFacts.

Lemma Parse_retried (fetch : string -> option Document)
      (c c' ch' : Chapter) (effs : list Effect) :
  retried c c' -> Parse fetch c' = Ok (ch', effs) ->
  (effs = [GoParse] /\ retried c ch') \/
  (effs = [SendDone true] /\ retried c ch').
Proof.
  intros R H. pose proof (Parse_Ok_inv _ _ _ _ H) as L.
  rewrite (Parse_enter fetch c' L) in H. cbn zeta in H.
  cbn [Url set_Url] in H.
  destruct (fetch (with_scheme (Url c'))) as [doc|]; injection H as <- <-.
  - right. split; [reflexivity|]. exact R.
  - left. split; [reflexivity|]. intro B. specialize (R B).
    cbn [Retries set_Retries set_Url].
    rewrite wrap_int_range by (unfold int_range, min_int, max_int; lia).
    lia.
Qed.

Lemma retried_refl (c : Chapter) : retried c c.
Proof. intro B. lia. Qed.

Lemma Parse_served (net : nat -> string -> option Document) (t : nat)
      (c c' ch' : Chapter) (effs : list Effect) :
  pending c c' -> Parse (net t) c' = Ok (ch', effs) ->
  (effs = [GoParse] /\ pending c ch') \/
  (effs = [SendDone true] /\ served net c ch').
Proof.
  intros (Ht & Hu & Hg & Hp & Hd) H.
  pose proof (Parse_Ok_inv _ _ _ _ H) as L.
  rewrite (Parse_enter (net t) c' L) in H. cbn zeta in H.
  cbn [Url set_Url] in H.
  destruct (net t (with_scheme (Url c'))) as [doc|] eqn:F;
    injection H as <- <-.
  - right. split; [reflexivity|]. exists t, doc, (Retries c').
    split; [now rewrite <- Hu|].
    unfold filled. cbn [Title Url Tags Paragraphs Retries DatePosted
                        set_Url set_Retries].
    now rewrite with_scheme_idem, Hu, Hg, Hp.
  - left. split; [reflexivity|]. unfold pending.
    cbn [Title Url Tags Paragraphs DatePosted set_Url set_Retries].
    now rewrite with_scheme_idem.
Qed.

(** In every state that an execution reaches, the invariant holds. *)
Lemma reached (net : nat -> string -> option Document) (sk : list Arc)
      (sched : list nat) (st : System) :
  (Z.of_nat (List.length (slots sk)) <= max_int)%Z ->
  run net 0 sched (launch sk) = Ok st ->
  invariant pending filled_from sk st.
Proof.
  intros B H.
  apply (run_invariant net pending filled_from sk
           (fun t => Parse_pending (net t)) sched 0 (launch sk) st);
    [|exact H].
  apply launch_invariant; [apply pending_refl | exact B].
Qed.

(** The only panic of a step is the one of a task out of retries. *)
Lemma step_Crash (fetch : string -> option Document) (sk : list Arc)
      (k : nat) (st : System) (p : Panic) :
  invariant pending filled_from sk st -> step fetch k st = Crash p ->
  exists sl c c',
    chapter_at sk sl = Some c /\ chapter_at (sys_arcs st) sl = Some c' /\
    pending c c' /\ (3 < Retries c')%Z /\ p = Explicit (timed_out c').
Proof.
  intros I H. unfold step in H.
  destruct (nth_error (running st) k) as [sl|] eqn:Ek; [|discriminate].
  pose proof (nth_error_In _ _ Ek) as Hin.
  destruct (chapter_at sk sl) as [c|] eqn:Esk;
    [|now destruct (inv_valid _ _ _ _ I sl Hin)].
  destruct (inv_slots _ _ _ _ I sl c Esk) as (c' & Hc' & HP & _).
  rewrite Hc' in H. specialize (HP Hin).
  destruct (Parse fetch c') as [[ch' effs]|q] eqn:EP; cbn [bind] in H.
  - exfalso.
    destruct (Parse_pending fetch c c' ch' effs HP EP) as [[-> _]|[-> _]];
      cbn [perform_all perform bind assembling] in H; [discriminate|].
    destruct (assembling st) eqn:A; [|discriminate].
    rewrite (inv_closed _ _ _ _ I A) in Hin. destruct Hin.
  - injection H as <-. exists sl, c, c'.
    destruct (Z_le_gt_dec (Retries c') 3) as [L|G].
    + rewrite (Parse_enter fetch c' L) in EP. cbn zeta in EP.
      destruct (fetch _); discriminate.
    + rewrite Parse_abort in EP by lia. injection EP as <-.
      split; [exact Esk|]. split; [exact Hc'|]. split; [exact HP|].
      split; [lia | reflexivity].
Qed.

Lemma run_Crash (net : nat -> string -> option Document) (sk : list Arc)
      (sched : list nat) (t : nat) (st : System) (p : Panic) :
  invariant pending filled_from sk st -> run net t sched st = Crash p ->
  exists sl c c',
    chapter_at sk sl = Some c /\ pending c c' /\ (3 < Retries c')%Z /\
    p = Explicit (timed_out c').
Proof.
  revert t st. induction sched as [|k sched IH]; intros t st I H;
    [discriminate|].
  cbn [run] in H. destruct (step (net t) k st) as [st1|q] eqn:E;
    cbn [bind] in H.
  - apply (IH (S t) st1); [|exact H].
    apply (step_invariant net pending filled_from sk
             (fun t => Parse_pending (net t)) t k st st1 I E).
  - injection H as <-.
    destruct (step_Crash _ _ _ _ _ I E) as (sl & c & c' & H1 & _ & H3 & H4 & H5).
    now exists sl, c, c'.
Qed.

(** The loop of [main] is left by the step that empties the set of running
    goroutines. *)
Lemma step_barrier (fetch : string -> option Document) (sk : list Arc)
      (k : nat) (st st' : System) :
  invariant pending filled_from sk st ->
  invariant pending filled_from sk st' ->
  step fetch k st = Ok st' ->
  assembling st = true \/ running st <> [] ->
  assembling st' = true \/ running st' <> [].
Proof.
  intros I I' H D. unfold step in H.
  destruct (nth_error (running st) k) as [sl|] eqn:Ek;
    [|injection H as <-; exact D].
  pose proof (nth_error_In _ _ Ek) as Hin.
  destruct (chapter_at sk sl) as [c|] eqn:Esk;
    [|now destruct (inv_valid _ _ _ _ I sl Hin)].
  destruct (inv_slots _ _ _ _ I sl c Esk) as (c' & Hc' & HP & _).
  rewrite Hc' in H. specialize (HP Hin).
  destruct (Parse fetch c') as [[ch' effs]|q] eqn:EP; cbn [bind] in H;
    [|discriminate].
  destruct (Parse_pending fetch c c' ch' effs HP EP) as [[-> _]|[-> _]];
    cbn [perform_all perform bind assembling running chapters sys_arcs] in H.
  - injection H as <-. right. cbn [running]. intro N.
    apply app_eq_nil in N. destruct N. discriminate.
  - destruct (assembling st) eqn:A; [discriminate|].
    injection H as <-. pose proof (inv_count _ _ _ _ I') as C.
    cbn [running chapters assembling] in *.
    destruct (remove_nth k (running st)) as [|x l]; [|right; discriminate].
    left. now rewrite C.
Qed.

Lemma run_barrier (net : nat -> string -> option Document) (sk : list Arc)
      (sched : list nat) (t : nat) (st st' : System) :
  invariant pending filled_from sk st ->
  run net t sched st = Ok st' ->
  assembling st = true \/ running st <> [] ->
  assembling st' = true \/ running st' <> [].
Proof.
  revert t st. induction sched as [|k sched IH]; intros t st I H D.
  - injection H as <-. exact D.
  - cbn [run] in H. destruct (step (net t) k st) as [st1|q] eqn:E;
      cbn [bind] in H; [|discriminate].
    pose proof (step_invariant net pending filled_from sk
                  (fun t => Parse_pending (net t)) t k st st1 I E) as I1.
    apply (IH (S t) st1 I1 H). now apply (step_barrier (net t) sk k st st1).
Qed.

End RunFacts.

(** X1: [ParseArcs] works line by line: the arcs of a text are the arcs of
    what stands before a newline, followed by the arcs of what stands behind
    it, in that order. *)
Theorem X1_ParseArcs_by_line (a b : string) :
  ParseArcs (a ++ newline ++ b) = (ParseArcs a ++ ParseArcs b)%list.
Proof.
  unfold ParseArcs, newline.
  change ((a ++ String "010" "" ++ b)%string) with ((a ++ String "010" b)%string).
  rewrite ContentsFacts.Split_app, fold_left_app.
  apply ContentsFacts.parse_lines_app.
Qed.

(** X2: every arc that [ParseArcs] returns has no chapters and the trimmed
    text of one line as its title; either the title starts with Arc and the
    identifier is the first run of digits of the title (only digits, none
    when the line has no digit), or the title starts with Epilogue and the
    identifier is E. *)
Theorem X2_ParseArcs_arcs (s : string) (a : Arc) :
  In a (ParseArcs s) ->
  Chapters a = [] /\
  (exists line, In line (Split s "010"%char) /\ ArcTitle a = TrimSpace line) /\
  ((HasPrefix (ArcTitle a) "Arc" = true /\
    Identifier a = FindDigits (ArcTitle a) /\
    all_digits (Identifier a) = true) \/
   (HasPrefix (ArcTitle a) "Arc" = false /\
    HasPrefix (ArcTitle a) "Epilogue" = true /\ Identifier a = "E")).
Proof.
  intro H. destruct (ContentsFacts.ParseArcs_arc s a H) as (line & Hl & Ha).
  destruct (ContentsFacts.parse_line_arc line a Ha) as (H1 & H2 & H3).
  split; [exact H1|]. split; [now exists line | exact H3].
Qed.

Lemma X2_ParseArcs_arcs_witness :
  Chapters {| Identifier := "10"; ArcTitle := "Arc 10: Parasite"; Chapters := [] |} = [] /\
  Identifier {| Identifier := "10"; ArcTitle := "Arc 10: Parasite"; Chapters := [] |}
  = FindDigits "Arc 10: Parasite".
Proof.
  destruct (X2_ParseArcs_arcs
              ("Table of Contents" ++ newline ++ "  Arc 10: Parasite " ++ newline
               ++ "Epilogue: Teneral")
              {| Identifier := "10"; ArcTitle := "Arc 10: Parasite"; Chapters := [] |})
    as (H1 & _ & [(_ & H3 & _)|(H3 & _)]).
  - vm_compute. left. reflexivity.
  - split; [exact H1 | exact H3].
  - discriminate H3.
Defined.

(** X3: when [WhichArc] returns an arc of the list, it returns no error and
    the arc is the first one whose identifier is the key of the title (its
    first two bytes without periods); that identifier has at most two bytes
    and no period, so an arc with a longer identifier is never returned.
    When it returns the new arc, it returns the error and no arc of the list
    has the key as identifier. *)
Theorem X3_WhichArc_result (ch : Chapter) (arcs : list Arc) (r : ArcRef)
        (e : option string) :
  WhichArc ch arcs = Ok (r, e) ->
  match r with
  | InList i =>
      e = None /\
      exists a, nth_error arcs i = Some a /\
        Identifier a = arc_key (Title ch) /\
        String.length (Identifier a) <= 2 /\
        Contains (Identifier a) "." = false /\
        forall j a', j < i -> nth_error arcs j = Some a' ->
                     Identifier a' <> arc_key (Title ch)
  | Fresh =>
      e = Some (no_match ch) /\
      forall a, In a arcs -> Identifier a <> arc_key (Title ch)
  end.
Proof.
  intro H. destruct (le_lt_dec 2 (String.length (Title ch))) as [L|S].
  - rewrite (ClassifierFacts.WhichArc_long ch arcs L) in H.
    destruct (find_arc (arc_key (Title ch)) arcs) as [i|] eqn:E;
      injection H as <- <-.
    + split; [reflexivity|].
      destruct (ClassifierFacts.find_arc_Some _ _ _ E) as (a & H1 & H2 & H3).
      exists a. rewrite H2. repeat split; trivial.
      * apply ClassifyFacts.arc_key_length.
      * apply ClassifyFacts.arc_key_no_period.
    + split; [reflexivity|]. now apply ClassifierFacts.find_arc_None.
  - destruct arcs as [|a0 arcs].
    + injection H as <- <-. split; [reflexivity | intros a []].
    + rewrite ClassifierFacts.WhichArc_short in H by (trivial; discriminate).
      discriminate.
Qed.

Lemma X3_WhichArc_result_witness :
  exists a, nth_error [arc1 []; epilogue []] 1 = Some a /\
            Identifier a = arc_key "E.1" /\ String.length (Identifier a) <= 2.
Proof.
  destruct (X3_WhichArc_result (placeholder "E.1" "u") [arc1 []; epilogue []]
              (InList 1) None eq_refl) as (_ & a & H1 & H2 & H3 & _).
  exists a. split; [exact H1 | split; [exact H2 | exact H3]].
Defined.

(** X4: when no link title has exactly one byte (or there is no arc at all),
    the loop over the links leaves every arc in its place with its chapters
    followed by the titled link chapters whose key first matches that arc,
    in the order of the links; chapters that match no arc are in no arc. *)
Theorem X4_add_links_by_discovery (arcs : list Arc) (links : list Link) :
  (arcs = [] \/
   forall l, In l links -> String.length (Title (link_chapter l)) <> 1) ->
  exists arcs',
    add_links arcs links = Ok arcs' /\
    List.length arcs' = List.length arcs /\
    forall k a, nth_error arcs k = Some a ->
      nth_error arcs' k
      = Some (set_Chapters a
                (Chapters a
                 ++ filter (fun ch =>
                              match find_arc (arc_key (Title ch)) arcs with
                              | Some i => Nat.eqb i k
                              | None => false
                              end) (titled links))%list).
Proof.
  intro H. exists (classify arcs (titled links)). split; [|split].
  - destruct H as [->|H]; [apply ClassifierFacts.add_links_nil|].
    rewrite <- (ClassifyFacts.assign_from_nil arcs 0 arcs) at 1.
    apply (ClassifyFacts.add_links_classify arcs [] links H).
  - apply ClassifyFacts.length_assign_from.
  - intros k a Hk. unfold classify.
    now rewrite (ClassifyFacts.nth_error_assign_from _ 0 _ _ k a Hk).
Qed.

Lemma X4_add_links_by_discovery_witness :
  exists arcs',
    add_links [arc1 []; epilogue []]
      [ {| text := "1.1"; href := "a" |}; {| text := "E.1"; href := "b" |};
        {| text := ""; href := "c" |}; {| text := "9.9"; href := "d" |};
        {| text := "1.2"; href := "e" |} ] = Ok arcs' /\
    nth_error arcs' 0
    = Some (arc1 [placeholder "1.1" "a"; placeholder "1.2" "e"]).
Proof.
  destruct (X4_add_links_by_discovery [arc1 []; epilogue []]
              [ {| text := "1.1"; href := "a" |}; {| text := "E.1"; href := "b" |};
                {| text := ""; href := "c" |}; {| text := "9.9"; href := "d" |};
                {| text := "1.2"; href := "e" |} ])
    as (arcs' & H1 & _ & H3).
  - right. intros l Hl.
    repeat (destruct Hl as [<-|Hl]; [vm_compute; discriminate|]). destruct Hl.
  - exists arcs'. split; [exact H1|]. exact (H3 0 (arc1 []) eq_refl).
Defined.

(** X5: the splice of the missing chapter succeeds exactly when some arc has
    identifier E and the first such arc has at least one chapter; in every
    other case it panics with slice bounds out of range. *)
Theorem X5_insert_missing_iff (arcs : list Arc) :
  ((exists arcs', insert_missing arcs = Ok arcs') <->
   (exists i a, find_arc "E" arcs = Some i /\ nth_error arcs i = Some a /\
                Chapters a <> [])) /\
  (forall p, insert_missing arcs = Crash p -> p = SliceBounds).
Proof.
  assert (D : (exists i a c0 rest, find_arc "E" arcs = Some i /\
                 nth_error arcs i = Some a /\ Chapters a = c0 :: rest) \/
              insert_missing arcs = Crash SliceBounds).
  { destruct (find_arc "E" arcs) as [i|] eqn:E.
    - destruct (ClassifierFacts.find_arc_Some _ _ _ E) as (a & Ha & _).
      destruct (Chapters a) as [|c0 rest] eqn:Ec.
      + right. apply ClassifyFacts.insert_missing_Crash.
        rewrite E. cbn [chapters_of]. now rewrite Ha.
      + left. now exists i, a, c0, rest.
    - right. apply ClassifyFacts.insert_missing_Crash. now rewrite E. }
  split; [split|].
  - intros [arcs' H]. destruct D as [(i & a & c0 & rest & H1 & H2 & H3)|C];
      [|congruence].
    exists i, a. rewrite H3. repeat split; trivial. discriminate.
  - intros (i & a & H1 & H2 & H3).
    destruct (Chapters a) as [|c0 rest] eqn:Ec; [congruence|].
    rewrite (ClassifyFacts.insert_missing_Ok arcs i a c0 rest H1 H2 Ec).
    eexists. reflexivity.
  - intros p H. destruct D as [(i & a & c0 & rest & H1 & H2 & H3)|C];
      [|congruence].
    rewrite (ClassifyFacts.insert_missing_Ok arcs i a c0 rest H1 H2 H3) in H.
    discriminate.
Qed.

Lemma X5_insert_missing_iff_witness :
  exists arcs', insert_missing [arc1 []; epilogue [placeholder "E.1" "u"]] = Ok arcs'.
Proof.
  apply (proj2 (proj1 (X5_insert_missing_iff
                         [arc1 []; epilogue [placeholder "E.1" "u"]]))).
  exists 1, (epilogue [placeholder "E.1" "u"]).
  split; [reflexivity | split; [reflexivity | discriminate]].
Defined.

(** X6: when the skeleton of a table of contents can be built, its arcs are
    those of [ParseArcs] in the same order with the same identifiers and
    titles; every chapter sits in an arc whose identifier is the key of its
    title and is a placeholder (title and address only, no retries); and the
    links hold a titled chapter with key E: without an epilogue link the
    splice of the missing chapter stops the run. *)
Theorem X6_skeleton_of_contents (s : string) (links : list Link)
        (sk : list Arc) :
  skeleton (ParseArcs s) links = Ok sk ->
  map Identifier sk = map Identifier (ParseArcs s) /\
  map ArcTitle sk = map ArcTitle (ParseArcs s) /\
  well_keyed sk /\
  (forall a ch, In a sk -> In ch (Chapters a) ->
                ch = placeholder (Title ch) (Url ch)) /\
  (exists l, In l links /\ Title (link_chapter l) <> "" /\
             arc_key (Title (link_chapter l)) = "E").
Proof.
  intro H.
  destruct (ClassifyFacts.skeleton_Ok _ _ _ H)
    as (i & a & c0 & rest & H1 & H2 & H3 & ->).
  set (cl := classify (ParseArcs s) (titled links)) in *.
  assert (W0 : well_keyed (ParseArcs s)).
  { intros a0 ch Ha Hc.
    rewrite (ContentsFacts.ParseArcs_no_chapters s a0 Ha) in Hc. destruct Hc. }
  pose proof (ClassifyFacts.well_keyed_classify _ (titled links) W0) as W.
  fold cl in W.
  destruct (ClassifierFacts.find_arc_Some _ _ _ H1) as (a1 & Ha1 & Hid & _).
  assert (a1 = a) by congruence. subst a1.
  pose proof (nth_error_In _ _ H2) as Hin.
  assert (P : forall a0 ch, In a0 cl -> In ch (Chapters a0) ->
                exists l, In l links /\ ch = link_chapter l /\ Title ch <> "").
  { intros a0 ch Ha Hc. unfold cl, classify in Ha.
    destruct (ClassifyFacts.In_assign_from _ _ _ _ _ Ha) as (j & b & Hj & _ & Hb).
    destruct (Hb ch Hc) as [L|[R _]].
    - rewrite (ContentsFacts.ParseArcs_no_chapters s b (nth_error_In _ _ Hj)) in L.
      destruct L.
    - unfold titled in R. apply filter_In in R. destruct R as [R1 R2].
      apply in_map_iff in R1. destruct R1 as (l & <- & Hl).
      exists l. repeat split; trivial.
      apply negb_true_iff in R2. now apply String.eqb_neq in R2. }
  split; [|split; [|split; [|split]]].
  - rewrite FetchFacts.map_update by reflexivity.
    apply ClassifyFacts.ids_assign_from.
  - rewrite FetchFacts.map_update by reflexivity.
    apply ClassifyFacts.ids_assign_from.
  - intros a' ch Ha Hc. apply ClassifyFacts.In_update in Ha.
    destruct Ha as [Ha|(y & Hy & ->)]; [now apply (W a')|].
    assert (y = a) by congruence. subst y.
    cbn [Identifier Chapters set_Chapters] in *.
    destruct Hc as [<-|[<-|Hc]].
    + apply (W a); [exact Hin|]. rewrite H3. now left.
    + now rewrite Hid.
    + apply (W a); [exact Hin|]. rewrite H3. now right.
  - intros a' ch Ha Hc. apply ClassifyFacts.In_update in Ha.
    assert (Q : forall a0 ch0, In a0 cl -> In ch0 (Chapters a0) ->
                  ch0 = placeholder (Title ch0) (Url ch0)).
    { intros a0 ch0 Ha0 Hc0. destruct (P a0 ch0 Ha0 Hc0) as (l & _ & -> & _).
      reflexivity. }
    destruct Ha as [Ha|(y & Hy & ->)]; [now apply (Q a')|].
    assert (y = a) by congruence. subst y.
    cbn [Chapters set_Chapters] in Hc.
    destruct Hc as [<-|[<-|Hc]].
    + apply (Q a); [exact Hin|]. rewrite H3. now left.
    + reflexivity.
    + apply (Q a); [exact Hin|]. rewrite H3. now right.
  - destruct (P a c0 Hin) as (l & Hl & E & Ht); [rewrite H3; now left|].
    exists l. rewrite <- E. repeat split; trivial.
    rewrite <- Hid. apply (W a); [exact Hin|]. rewrite H3. now left.
Qed.

Lemma X6_skeleton_of_contents_witness :
  exists sk,
    skeleton (ParseArcs ("Arc 1: Gestation" ++ newline ++ "Epilogue: Teneral"))
      [ {| text := "1.1"; href := "a" |}; {| text := "E.1"; href := "b" |} ]
    = Ok sk /\
    map Identifier sk = ["1"; "E"] /\ well_keyed sk.
Proof.
  eexists. split; [vm_compute; reflexivity|].
  match goal with
  | |- map Identifier ?k = _ /\ _ =>
      destruct (X6_skeleton_of_contents
                  ("Arc 1: Gestation" ++ newline ++ "Epilogue: Teneral")
                  [ {| text := "1.1"; href := "a" |}; {| text := "E.1"; href := "b" |} ]
                  k) as (H1 & _ & H3 & _)
  end.
  - vm_compute. reflexivity.
  - split; [exact H1 | exact H3].
Defined.

(** X7: in every state that an execution of the fetch phase reaches, the
    retry counter of a chapter that started between 0 and 4 has not
    decreased and is 4 at most, whatever the schedule and the network. *)
Theorem X7_retries_bounded
  (net : nat -> string -> option Document) (sk : list Arc)
  (sched : list nat) (st : System) (sl : Slot) (c : Chapter) :
  (Z.of_nat (List.length (slots sk)) <= max_int)%Z ->
  run net 0 sched (launch sk) = Ok st ->
  chapter_at sk sl = Some c ->
  (0 <= Retries c <= 4)%Z ->
  exists c', chapter_at (sys_arcs st) sl = Some c' /\
             (Retries c <= Retries c' <= 4)%Z.
Proof.
  intros B H Hc R.
  pose proof (FetchFacts.run_invariant net retried retried sk
                (fun t => RunFacts.Parse_retried (net t)) sched 0 _ _
                (FetchFacts.launch_invariant retried retried sk
                   RunFacts.retried_refl B) H) as I.
  destruct (inv_slots _ _ _ _ I sl c Hc) as (c' & E & P & F).
  exists c'. split; [exact E|].
  destruct (in_dec slot_eq_dec sl (running st)) as [Y|N];
    [apply (P Y R) | apply (F N R)].
Qed.

Lemma X7_retries_bounded_witness :
  exists st,
    run dead_net 0 [0; 2; 2; 2] (launch sample_skeleton) = Ok st /\
    exists c', chapter_at (sys_arcs st) (0, 0) = Some c' /\
               (Retries (placeholder "1.1" "site/1-1") <= Retries c' <= 4)%Z.
Proof.
  eexists. split; [vm_compute; reflexivity|].
  apply (X7_retries_bounded dead_net sample_skeleton [0; 2; 2; 2]).
  - vm_compute. discriminate.
  - vm_compute. reflexivity.
  - reflexivity.
  - cbn [placeholder Retries]. lia.
Defined.

(** X8: when [main] leaves the receive loop, every chapter of the skeleton
    has been filled, in its place, from a page that the network served at
    the address of that chapter (with https:// put before an address that
    does not start with http): title, date, tags and paragraphs come from
    that page. *)
Theorem X8_filled_from_served
  (net : nat -> string -> option Document) (sk : list Arc)
  (sched : list nat) (st : System) (sl : Slot) (c : Chapter) :
  (Z.of_nat (List.length (slots sk)) <= max_int)%Z ->
  run net 0 sched (launch sk) = Ok st ->
  assembling st = true ->
  chapter_at sk sl = Some c ->
  exists c' t doc,
    chapter_at (sys_arcs st) sl = Some c' /\
    net t (with_scheme (Url c)) = Some doc /\
    Title c' = entry_title doc /\
    Url c' = with_scheme (Url c) /\ HasPrefix (Url c') "http" = true /\
    Tags c' = (Tags c ++ entry_tags doc)%list /\
    Paragraphs c' = (Paragraphs c ++ paragraphs (entry_content doc))%list /\
    DatePosted c' = entry_date doc.
Proof.
  intros B H A Hc.
  destruct (FetchFacts.run_filled net pending (served net) sk
              (RunFacts.Parse_served net) FetchFacts.pending_refl
              sched st B H A) as [_ F].
  destruct (F sl c Hc) as (c' & E & t & doc & r & N & ->).
  exists (filled (set_Retries c r) doc), t, doc.
  cbn [filled Title Url Tags Paragraphs DatePosted set_Retries].
  repeat split; trivial. apply ParseFacts.with_scheme_HasPrefix.
Qed.

Lemma X8_filled_from_served_witness :
  exists st c',
    run flaky_net 0 [2; 2; 1; 0] (launch sample_skeleton) = Ok st /\
    chapter_at (sys_arcs st) (1, 0) = Some c' /\
    Url c' = with_scheme "site/e-1".
Proof.
  eexists.
  match goal with
  | |- context [sys_arcs ?s] =>
      destruct (X8_filled_from_served flaky_net sample_skeleton [2; 2; 1; 0] s
                  (1, 0) (placeholder "E.1" "site/e-1"))
        as (c' & t & doc & H1 & _ & _ & H4 & _)
  end.
  - vm_compute. discriminate.
  - vm_compute. reflexivity.
  - reflexivity.
  - reflexivity.
  - exists c'. split; [vm_compute; reflexivity|].
    split; [exact H1 | exact H4].
Defined.

(** X9: when the page of one chapter never loads, [main] never leaves the
    receive loop, whatever the schedule: no document is assembled with a
    chapter that was not fetched. *)
Theorem X9_dead_page_never_assembles
  (net : nat -> string -> option Document) (sk : list Arc)
  (sched : list nat) (st : System) (sl : Slot) (c : Chapter) :
  (Z.of_nat (List.length (slots sk)) <= max_int)%Z ->
  chapter_at sk sl = Some c ->
  (forall t, net t (with_scheme (Url c)) = None) ->
  run net 0 sched (launch sk) = Ok st ->
  assembling st = false.
Proof.
  intros B Hc Dead H. destruct (assembling st) eqn:A; [|reflexivity].
  destruct (FetchFacts.run_filled net pending (served net) sk
              (RunFacts.Parse_served net) FetchFacts.pending_refl
              sched st B H A) as [_ F].
  destruct (F sl c Hc) as (c' & _ & t & doc & r & N & _).
  rewrite Dead in N. discriminate.
Qed.

Lemma X9_dead_page_never_assembles_witness :
  exists st, run dead_net 0 [0; 1] (launch sample_skeleton) = Ok st /\
             assembling st = false.
Proof.
  eexists. split; [vm_compute; reflexivity|].
  apply (X9_dead_page_never_assembles dead_net sample_skeleton [0; 1] _ (0, 0)
           (placeholder "1.1" "site/1-1")).
  - vm_compute. discriminate.
  - reflexivity.
  - reflexivity.
  - vm_compute. reflexivity.
Defined.

(** X10: the only panic of the fetch phase is the one of a task whose
    chapter has run out of retries: an execution that panics does so with
    the timed-out message of a chapter of the skeleton whose counter is
    above 3; there is no index out of range and no send on the closed
    channel. *)
Theorem X10_only_retry_panic
  (net : nat -> string -> option Document) (sk : list Arc)
  (sched : list nat) (p : Panic) :
  (Z.of_nat (List.length (slots sk)) <= max_int)%Z ->
  run net 0 sched (launch sk) = Crash p ->
  exists sl c c',
    chapter_at sk sl = Some c /\ pending c c' /\ (3 < Retries c')%Z /\
    p = Explicit (timed_out c').
Proof.
  intros B H.
  apply (RunFacts.run_Crash net sk sched 0 (launch sk) p); [|exact H].
  apply FetchFacts.launch_invariant; [apply FetchFacts.pending_refl | exact B].
Qed.

Lemma X10_only_retry_panic_witness :
  exists sl c c',
    chapter_at sample_skeleton sl = Some c /\ pending c c' /\
    (3 < Retries c')%Z /\
    Explicit "Chapter url 'https://site/1-1' has timed out too many times"
    = Explicit (timed_out c').
Proof.
  apply (X10_only_retry_panic dead_net sample_skeleton [0; 2; 2; 2; 2]).
  - vm_compute. discriminate.
  - vm_compute. reflexivity.
Defined.

(** X11: in every state that an execution over a skeleton with at least one
    chapter reaches, the counter of [main] is the number of goroutines that
    have not returned, and [main] has left the receive loop exactly when
    there is none left. *)
Theorem X11_barrier
  (net : nat -> string -> option Document) (sk : list Arc)
  (sched : list nat) (st : System) :
  (Z.of_nat (List.length (slots sk)) <= max_int)%Z ->
  slots sk <> [] ->
  run net 0 sched (launch sk) = Ok st ->
  chapters st = Z.of_nat (List.length (running st)) /\
  (assembling st = true <-> running st = []).
Proof.
  intros B Hne H. pose proof (RunFacts.reached net sk sched st B H) as I.
  split; [apply (inv_count _ _ _ _ I)|]. split.
  - apply (inv_closed _ _ _ _ I).
  - intro E.
    destruct (RunFacts.run_barrier net sk sched 0 (launch sk) st) as [A|N];
      trivial.
    + apply FetchFacts.launch_invariant;
        [apply FetchFacts.pending_refl | exact B].
    + right. exact Hne.
    + contradiction.
Qed.

Lemma X11_barrier_witness :
  exists st, run flaky_net 0 [2; 2; 1] (launch sample_skeleton) = Ok st /\
             chapters st = Z.of_nat (List.length (running st)).
Proof.
  eexists. split; [vm_compute; reflexivity|].
  refine (proj1 (X11_barrier flaky_net sample_skeleton [2; 2; 1] _ _ _ _)).
  - vm_compute. discriminate.
  - discriminate.
  - vm_compute. reflexivity.
Defined.

(** X12: with a site that always answers and chapters that have at most 3
    retries counted, every order of completion is an execution that ends
    with [main] leaving the receive loop: no schedule deadlocks or panics. *)
Theorem X12_every_order_completes
  (net : nat -> string -> option Document) (site : string -> Document)
  (sk : list Arc) (sched : list nat) :
  (forall t u, net t u = Some (site u)) ->
  (Z.of_nat (List.length (slots sk)) <= max_int)%Z ->
  (forall sl c, chapter_at sk sl = Some c -> (Retries c <= 3)%Z) ->
  picks (List.length (slots sk)) sched -> sched <> [] ->
  exists st, run net 0 sched (launch sk) = Ok st /\ assembling st = true /\
             sys_arcs st = fill_all site sk.
Proof.
  intros Hnet B R P Hne.
  destruct (FetchFacts.run_completes net site sk sched Hnet B R P Hne)
    as (st & H & A).
  exists st. split; [exact H|]. split; [exact A|].
  now apply (FetchFacts.run_steady net site sk sched st).
Qed.

Lemma X12_every_order_completes_witness :
  exists st, run steady_net 0 [1; 1; 0] (launch sample_skeleton) = Ok st /\
             assembling st = true /\
             sys_arcs st = fill_all sample_site sample_skeleton.
Proof.
  apply (X12_every_order_completes steady_net sample_site sample_skeleton
           [1; 1; 0]).
  - reflexivity.
  - vm_compute. discriminate.
  - intros [i j] c H. unfold chapter_at, sample_skeleton in H.
    destruct i as [|[|i]]; cbn in H.
    + destruct j as [|[|j]]; cbn in H;
        [injection H as <-; cbn; lia | injection H as <-; cbn; lia
        | destruct j; discriminate].
    + destruct j as [|j]; cbn in H;
        [injection H as <-; cbn; lia | destruct j; discriminate].
    + destruct i; discriminate.
  - cbn. lia.
  - discriminate.
Defined.

(** ** The paragraphs, the document and the conversion *)

Module DocumentFacts.

Import GoStringFacts.

Lemma paragraphs_no_newline (sels : list Selection) :
  Forall (fun p => Contains p newline = false) (paragraphs sels).
Proof.
  unfold paragraphs. induction sels as [|s sels IH]; cbn [flat_map].
  - constructor.
  - apply Forall_app. split; [|exact IH].
    unfold paragraph_of.
    destruct (0 <? List.length (Find (node s) "a"))%nat; constructor;
      [apply FormatFacts.Format_no_newline | constructor].
Qed.

Lemma length_paragraphs (sels : list Selection) :
  List.length (paragraphs sels) <= List.length sels.
Proof.
  unfold paragraphs. induction sels as [|s sels IH]; cbn [flat_map List.length].
  - lia.
  - rewrite List.length_app. destruct (paragraph_of s); cbn [List.length]; lia.
Qed.

Lemma HasPrefix_app_l (s b p : string) :
  HasPrefix s p = true -> HasPrefix (s ++ b) p = true.
Proof.
  intro H. apply HasPrefix_spec in H. destruct H as [r ->].
  rewrite app_assoc. apply HasPrefix_app.
Qed.

Lemma Contains_app_l (s b p : string) :
  Contains s p = true -> Contains (s ++ b) p = true.
Proof.
  induction s as [|c s IH]; cbn [Contains]; intro H.
  - apply Contains_HasPrefix. now apply (HasPrefix_app_l "" b p).
  - apply orb_true_iff in H. change (String c s ++ b) with (String c (s ++ b)).
    cbn [Contains]. apply orb_true_iff. destruct H as [H|H].
    + left. now apply (HasPrefix_app_l (String c s) b p).
    + right. now apply IH.
Qed.

Lemma Contains_head (p b : string) : Contains (p ++ b) p = true.
Proof. apply Contains_HasPrefix, HasPrefix_app. Qed.

Lemma Contains_flatten (l : list string) (x p : string) :
  In x l -> Contains x p = true -> Contains (flatten l) p = true.
Proof.
  intros Hin H. induction l as [|y l IH]; [contradiction|].
  change (flatten (y :: l)) with (y ++ flatten l).
  destruct Hin as [->|Hin].
  - now apply Contains_app_l.
  - apply Contains_app_r. now apply IH.
Qed.

(** The text of a chapter: a blank line, the heading, the details that the
    options ask for, and the paragraphs, each followed by a blank line. *)
Lemma chapter_layout (opts : Options) (ch : Chapter) :
  chapter_text opts ch
  = (newline ++ newline)
    ++ ("## " ++ Title ch ++ newline ++ newline)
    ++ ((if with_tags opts
         then "**Tags:** " ++ Join (Tags ch) ", " ++ "  " else "")
        ++ (if with_date opts
            then "**Date:** " ++ DatePosted ch ++ "  " else "")
        ++ (if with_link opts then "**Link:** " ++ Url ch ++ "  " else "")
        ++ newline ++ newline)
    ++ flatten (map (fun p => p ++ newline ++ newline) (Paragraphs ch)).
Proof.
  unfold chapter_text, write_chapter. cbn zeta. rewrite !FetchFacts.flatten_fold.
  destruct (with_tags opts), (with_date opts), (with_link opts);
    rewrite ?app_assoc; cbn [String.append]; rewrite ?app_assoc;
    reflexivity.
Qed.

Lemma chapter_heading (opts : Options) (ch : Chapter) :
  Contains (chapter_text opts ch) ("## " ++ Title ch ++ newline ++ newline)
  = true.
Proof.
  rewrite chapter_layout. apply (Contains_app_r (newline ++ newline)).
  apply Contains_head.
Qed.

Lemma chapter_paragraph (opts : Options) (ch : Chapter) (p : Paragraph) :
  In p (Paragraphs ch) ->
  Contains (chapter_text opts ch) (p ++ newline ++ newline) = true.
Proof.
  intro H. rewrite chapter_layout.
  apply (Contains_app_r (newline ++ newline)).
  apply (Contains_app_r ("## " ++ Title ch ++ newline ++ newline)).
  apply Contains_app_r.
  apply (Contains_flatten _ (p ++ newline ++ newline)).
  - apply (in_map (fun p => p ++ newline ++ newline)). exact H.
  - rewrite <- (app_nil_r (p ++ newline ++ newline)) at 1.
    apply Contains_head.
Qed.

Lemma arc_part (opts : Options) (a : Arc) (c : Chapter) (q : string) :
  In c (Chapters a) -> Contains (chapter_text opts c) q = true ->
  Contains (arc_text opts a) q = true.
Proof.
  intros Hin H. unfold arc_text. apply Contains_app_r.
  apply (Contains_flatten _ (chapter_text opts c)); [|exact H].
  now apply in_map.
Qed.

Lemma document_part (opts : Options) (arcs : list Arc) (a : Arc) (q : string) :
  In a arcs -> Contains (arc_text opts a) q = true ->
  Contains (document opts arcs) q = true.
Proof.
  intros Hin H. rewrite FetchFacts.document_text. apply Contains_app_r.
  apply (Contains_flatten _ (arc_text opts a)); [|exact H].
  now apply in_map.
Qed.

Lemma lookup_write (fs : FileSystem) (n d : string) :
  lookup (write fs n d) n = Some d.
Proof.
  induction fs as [|[m e] fs IH]; cbn [write lookup].
  - now rewrite String.eqb_refl.
  - destruct (String.eqb m n) eqn:E; cbn [lookup]; rewrite E; auto.
Qed.

Lemma lookup_Remove (fs : FileSystem) (n : string) :
  lookup (Remove fs n) n = None.
Proof.
  unfold Remove. induction fs as [|[m e] fs IH]; cbn [filter fst]; [reflexivity|].
  destruct (String.eqb m n) eqn:E; cbn [negb lookup]; [exact IH|].
  now rewrite E.
Qed.

Lemma lookup_Remove_other (fs : FileSystem) (n m : string) :
  String.eqb n m = false -> lookup (Remove fs n) m = lookup fs m.
Proof.
  intro D. unfold Remove.
  induction fs as [|[k e] fs IH]; cbn [filter fst]; [reflexivity|].
  destruct (String.eqb k n) eqn:E; cbn [negb lookup].
  - apply String.eqb_eq in E. subst k. now rewrite D.
  - now rewrite IH.
Qed.

Lemma save_Ok (opts : Options) (arcs : list Arc) (fs : FileSystem) :
  lookup fs "Worm.md" = None ->
  exists fs', save opts arcs fs = (fs', Ok tt) /\
              lookup fs' "Worm.md" = Some (document opts arcs).
Proof.
  intro H. unfold save, OpenFile. rewrite H.
  change (has (Z.lor (Z.lor O_RDWR O_CREATE) O_EXCL) O_CREATE) with true.
  eexists. split; [reflexivity | apply lookup_write].
Qed.

Lemma save_Crash (opts : Options) (arcs : list Arc) (fs : FileSystem)
      (old : string) :
  lookup fs "Worm.md" = Some old ->
  save opts arcs fs = (fs, Crash (Explicit "open Worm.md: file exists")).
Proof.
  intro H. unfold save, OpenFile. rewrite H. reflexivity.
Qed.

End DocumentFacts.

(** X13: what one call of [Parse] that does not panic does to its chapter.
    The address gets its scheme. A failed attempt changes nothing else but
    the retry counter; a successful one leaves the counter, takes title and
    date from the page, and keeps the tags and paragraphs that the chapter
    had, adding behind them the tags of the page and at most one paragraph
    for each content element, none of which contains a newline. *)
Theorem X13_Parse_frame
  (fetch : string -> option Document) (ch ch' : Chapter) (effs : list Effect) :
  Parse fetch ch = Ok (ch', effs) ->
  Url ch' = with_scheme (Url ch) /\
  ((effs = [GoParse] /\ fetch (with_scheme (Url ch)) = None /\
    Retries ch' = wrap_int (Retries ch + 1) /\
    Title ch' = Title ch /\ DatePosted ch' = DatePosted ch /\
    Tags ch' = Tags ch /\ Paragraphs ch' = Paragraphs ch) \/
   (exists doc ps,
      effs = [SendDone true] /\ fetch (with_scheme (Url ch)) = Some doc /\
      Retries ch' = Retries ch /\
      Title ch' = entry_title doc /\ DatePosted ch' = entry_date doc /\
      Tags ch' = (Tags ch ++ entry_tags doc)%list /\
      Paragraphs ch' = (Paragraphs ch ++ ps)%list /\
      List.length ps <= List.length (entry_content doc) /\
      Forall (fun p => Contains p newline = false) ps)).
Proof.
  intro H. pose proof (ParseFacts.Parse_Ok_inv _ _ _ _ H) as R.
  rewrite (ParseFacts.Parse_enter fetch ch R) in H. cbn zeta in H.
  cbn [Url set_Url] in H.
  destruct (fetch (with_scheme (Url ch))) as [doc|] eqn:F;
    injection H as <- <-.
  - split; [cbn; apply ParseFacts.with_scheme_idem|]. right.
    exists doc, (paragraphs (entry_content doc)).
    cbn [filled set_Url Retries Title DatePosted Tags Paragraphs].
    repeat split; trivial.
    + apply DocumentFacts.length_paragraphs.
    + apply DocumentFacts.paragraphs_no_newline.
  - split; [reflexivity|]. left. repeat split; trivial.
Qed.

Lemma X13_Parse_frame_witness :
  exists ch',
    Parse (steady_net 0) (placeholder "1.1" "site/1-1")
    = Ok (ch', [SendDone true]) /\
    Url ch' = "https://site/1-1".
Proof.
  eexists. split; [reflexivity|].
  apply (proj1 (X13_Parse_frame (steady_net 0) (placeholder "1.1" "site/1-1")
                  _ [SendDone true] eq_refl)).
Defined.

(** X14: [Format] never makes a paragraph longer. *)
Theorem X14_Format_never_longer (s : string) :
  String.length (Format s) <= String.length s.
Proof.
  unfold Format. cbn zeta.
  repeat (eapply Nat.le_trans;
          [apply ClassifyFacts.length_Replace_le; cbn; lia|]).
  apply Nat.le_refl.
Qed.

(** X15: the document that [main] writes starts with the cover and loses
    nothing of the arcs it is given, whatever the options: it contains the
    title of every arc behind a blank line, the heading of every chapter and
    every paragraph of every chapter followed by a blank line. *)
Theorem X15_document_keeps_everything (opts : Options) (arcs : list Arc) :
  HasPrefix (document opts arcs) cover = true /\
  forall a, In a arcs ->
    Contains (document opts arcs) (newline ++ newline ++ ArcTitle a) = true /\
    forall c, In c (Chapters a) ->
      Contains (document opts arcs) ("## " ++ Title c ++ newline ++ newline)
      = true /\
      forall p, In p (Paragraphs c) ->
        Contains (document opts arcs) (p ++ newline ++ newline) = true.
Proof.
  split.
  - rewrite FetchFacts.document_text. apply GoStringFacts.HasPrefix_app.
  - intros a Ha. split.
    + apply (DocumentFacts.document_part opts arcs a _ Ha).
      unfold arc_text. apply DocumentFacts.Contains_head.
    + intros c Hc. split.
      * apply (DocumentFacts.document_part opts arcs a _ Ha).
        apply (DocumentFacts.arc_part opts a c _ Hc).
        apply DocumentFacts.chapter_heading.
      * intros p Hp.
        apply (DocumentFacts.document_part opts arcs a _ Ha).
        apply (DocumentFacts.arc_part opts a c _ Hc).
        now apply DocumentFacts.chapter_paragraph.
Qed.

Lemma X15_document_keeps_everything_witness :
  Contains (document plain [arc1 [sample_chapter]])
           ("## " ++ Title sample_chapter ++ newline ++ newline) = true.
Proof.
  apply (proj1 (proj2 (proj2 (X15_document_keeps_everything plain
                                [arc1 [sample_chapter]])
                         (arc1 [sample_chapter]) (or_introl eq_refl))
                  sample_chapter (or_introl eq_refl))).
Defined.

(** X16: the write phase followed by the conversion, started without a file
    Worm.md and with a converter that leaves that file alone. The run does
    not panic. When the conversion fails, the Markdown file stays, holding
    the document, and the next run panics on opening it. When the conversion
    succeeds the file is removed, and the next run does not panic. *)
Theorem X16_rerun_after_conversion
  (pandoc pandoc' : list string -> FileSystem -> FileSystem * bool)
  (opts opts' : Options) (arcs arcs' : list Arc) (fs : FileSystem) :
  lookup fs "Worm.md" = None ->
  (forall args fs0,
      lookup (fst (pandoc args fs0)) "Worm.md" = lookup fs0 "Worm.md") ->
  exists fs1 failed,
    finish pandoc opts arcs fs = (fs1, Ok tt) /\
    failed = snd (pandoc (cmdText opts) (fst (save opts arcs fs))) /\
    (failed = true ->
     lookup fs1 "Worm.md" = Some (document opts arcs) /\
     finish pandoc' opts' arcs' fs1
     = (fs1, Crash (Explicit "open Worm.md: file exists"))) /\
    (failed = false ->
     lookup fs1 "Worm.md" = None /\
     snd (finish pandoc' opts' arcs' fs1) = Ok tt).
Proof.
  intros Hno Keep.
  destruct (DocumentFacts.save_Ok opts arcs fs Hno) as (fs0 & S & L).
  unfold finish at 1. rewrite S. cbn [fst]. unfold convert.
  specialize (Keep (cmdText opts) fs0).
  destruct (pandoc (cmdText opts) fs0) as [fs1 err]. cbn [fst snd] in *.
  rewrite L in Keep. destruct err.
  - exists fs1, true. split; [reflexivity|]. split; [reflexivity|].
    split; [|discriminate]. intros _. split; [exact Keep|].
    unfold finish. now rewrite (DocumentFacts.save_Crash _ _ _ _ Keep).
  - exists (Remove fs1 "Worm.md"), false.
    split; [reflexivity|]. split; [reflexivity|].
    split; [discriminate|]. intros _.
    split; [apply DocumentFacts.lookup_Remove|].
    destruct (DocumentFacts.save_Ok opts' arcs' (Remove fs1 "Worm.md")
                (DocumentFacts.lookup_Remove fs1 "Worm.md")) as (fs2 & S2 & _).
    unfold finish. now rewrite S2.
Qed.

Lemma X16_rerun_after_conversion_witness :
  exists fs1,
    finish no_pandoc plain sample_skeleton [] = (fs1, Ok tt) /\
    finish good_pandoc plain sample_skeleton fs1
    = (fs1, Crash (Explicit "open Worm.md: file exists")).
Proof.
  destruct (X16_rerun_after_conversion no_pandoc good_pandoc plain plain
              sample_skeleton sample_skeleton [] eq_refl
              (fun _ _ => eq_refl))
    as (fs1 & failed & H1 & H2 & H3 & _).
  exists fs1. split; [exact H1|]. apply H3. exact H2.
Defined.
